(** * pygsa: Sobol quasi-random sequences (pygsa/sampling/sobol_sequence.py)

  A shallow embedding of class [SobolSample] and the properties of its
  constructor, of the direction-number matrix [V], of the sequential
  producer ([__iter__], [__next__], [generate_sample]) and of the bulk
  producer ([generate_all_samples]).

  Conventions of the embedding.
  - Python [int] is [Z]; [&], [^], [>>], [<<] are [Z.land], [Z.lxor],
    [Z.shiftr], [Z.shiftl], which agree with Python on negative numbers
    (infinite two's complement).  The entries of the numpy arrays
    ([dtype=int]) are integers without a width: over a table of direction
    numbers they stay below [2^scale] (lemma [generate_V_bounded]), so that
    no entry of a 64-bit array wraps when [scale <= 62].
  - Numbers are exact.  A coordinate [float(y / math.pow(2, scale))] is the
    rational [y / 2^scale] (what binary64 gives as long as [y] has at most
    53 significant bits), and [math.ceil(math.log(n) / math.log(2))] is
    [Z.log2_up n], the ceiling of the real logarithm; the rounding of the
    binary64 quotient is not part of the embedding.
  - An exception is a value of [exn].  A method that changes the generator
    is a function from the generator to an [outcome]; a loop that is still
    running when the fuel is used up gives [Diverge].
  - [__next__] hands out an object, not a list of numbers: the first call
    returns the array [self.Y] itself ([TheY]), which the later calls update
    in place, and [read] gives what a caller finds in it in a given state.
  - The module [directions] is not part of the file: the table is the
    section variable [directions], one row [[a; m_1; ...; m_s]] per
    dimension, read by [len(directions.data)] and [directions[i]]. *)

From Stdlib Require Import ZArith QArith Qpower Lia String.
From stdpp Require Import base list.

Open Scope Z_scope.

(** ** The fragment of Python that the class uses *)

Module Py.

Inductive exn : Type :=
| ValueError (msg : string)
| IndexError
| StopIteration.

(** Code without side effects on the generator: a value or an exception. *)
Inductive result (A : Type) : Type :=
| Ok (a : A)
| Err (e : exn).
Arguments Ok {A} a.
Arguments Err {A} e.

#[global] Instance result_ret : MRet result := fun A a => Ok a.
#[global] Instance result_bind : MBind result := fun A B f r =>
  match r with
  | Ok a => f a
  | Err e => Err e
  end.

(** Left fold of a fallible body over a list: a [for] loop that updates
    the local state [s]. *)
Fixpoint foldM {St B : Type} (f : St -> B -> result St) (s : St) (l : list B)
  : result St :=
  match l with
  | [] => Ok s
  | x :: l' => s' ← f s x; foldM f s' l'
  end.

(** [range(a, b)] *)
Definition range (a b : Z) : list Z := seqZ a (b - a).

(** Position selected by the index [i] in a sequence of length [len]:
    negative indices count from the end, anything else is out of range. *)
Definition py_index (len : nat) (i : Z) : option nat :=
  if (0 <=? i) && (i <? Z.of_nat len) then Some (Z.to_nat i)
  else if (- Z.of_nat len <=? i) && (i <? 0) then Some (Z.to_nat (Z.of_nat len + i))
  else None.

(** [l[i]] *)
Definition getitem {A : Type} (l : list A) (i : Z) : result A :=
  match py_index (length l) i with
  | Some n =>
      match l !! n with
      | Some x => Ok x
      | None => Err IndexError
      end
  | None => Err IndexError
  end.

(** [l[i] = x] *)
Definition setitem {A : Type} (l : list A) (i : Z) (x : A) : result (list A) :=
  match py_index (length l) i with
  | Some n => Ok (<[n := x]> l)
  | None => Err IndexError
  end.

(** [a << n] on Python integers: a negative count is an error. *)
Definition lshift (a n : Z) : result Z :=
  if n <? 0 then Err (ValueError "negative shift count") else Ok (Z.shiftl a n).

(** [int(math.ceil(math.log(n) / math.log(2)))] *)
Definition ceil_log2 (n : Z) : result Z :=
  if n <=? 0 then Err (ValueError "math domain error") else Ok (Z.log2_up n).

End Py.
Import Py.

(** ** Two-dimensional integer arrays *)

Module Matrix.

Abbreviation matrix := (list (list Z)).

(** [np.zeros([rows, cols], dtype=int)] *)
Definition zeros (rows cols : Z) : result matrix :=
  if (rows <? 0) || (cols <? 0)
  then Err (ValueError "negative dimensions are not allowed")
  else Ok (replicate (Z.to_nat rows) (replicate (Z.to_nat cols) 0)).

(** [V[j, i]] (and [V[j][i]]) *)
Definition mget (V : matrix) (j i : Z) : result Z :=
  row ← getitem V j; getitem row i.

(** [V[j, i] = x] *)
Definition mset (V : matrix) (j i x : Z) : result matrix :=
  row ← getitem V j;
  row' ← setitem row i x;
  setitem V j row'.

(** [V[lo:hi, c] = vals] for [0 <= lo], [0 <= hi]: the slice is the rows
    [lo .. min hi (len V) - 1]; the column must exist and [vals] must have
    one value per row of the slice. *)
Definition assign_col (V : matrix) (lo hi c : Z) (vals : list Z) : result matrix :=
  let rows := range lo (Z.min hi (Z.of_nat (length V))) in
  match V with
  | [] => Err IndexError
  | row0 :: _ =>
      match py_index (length row0) c with
      | None => Err IndexError
      | Some _ =>
          if bool_decide (length rows = length vals)
          then foldM (fun V' jx => mset V' jx.1 c jx.2) V (zip rows vals)
          else Err (ValueError "could not broadcast input array")
      end
  end.

(** Total read, used to state properties of a matrix. *)
Definition at_ (V : matrix) (j i : Z) : Z :=
  default 0 (row ← V !! Z.to_nat j; row !! Z.to_nat i).

Definition shape (V : matrix) (rows cols : nat) : Prop :=
  length V = rows /\ Forall (fun row => length row = cols) V.

End Matrix.
Import Matrix.

(** ** The generator and its monad *)

Record SobolSample : Type := {
  n_samples : Z;
  n_dimensions : Z;
  scale : Z;
  L : Z;
  current : Z;
  Y : list Z;
  V : matrix
}.

(** What a method call does: it returns [a] or raises [e], leaving the
    generator in the state [self], or it never returns. *)
Inductive outcome (A : Type) : Type :=
| Ret (a : A) (self : SobolSample)
| Raise (e : exn) (self : SobolSample)
| Diverge.
Arguments Ret {A} a self.
Arguments Raise {A} e self.
Arguments Diverge {A}.

Definition M (A : Type) : Type := SobolSample -> outcome A.

#[global] Instance M_ret : MRet M := fun A a self => Ret a self.
#[global] Instance M_bind : MBind M := fun A B f m self =>
  match m self with
  | Ret a self' => f a self'
  | Raise e self' => Raise e self'
  | Diverge => Diverge
  end.

Definition get : M SobolSample := fun self => Ret self self.
Definition raise {A : Type} (e : exn) : M A := fun self => Raise e self.
Definition lift {A : Type} (r : result A) : M A := fun self =>
  match r with
  | Ok a => Ret a self
  | Err e => Raise e self
  end.
Definition loop_result {A : Type} (o : option A) : M A := fun self =>
  match o with
  | Some a => Ret a self
  | None => Diverge
  end.
(** [self.Y = y] and [self.current = c] *)
Definition with_Y (y : list Z) (self : SobolSample) : SobolSample :=
  {| n_samples := n_samples self; n_dimensions := n_dimensions self;
     scale := scale self; L := L self; current := current self;
     Y := y; V := V self |}.
Definition with_current (c : Z) (self : SobolSample) : SobolSample :=
  {| n_samples := n_samples self; n_dimensions := n_dimensions self;
     scale := scale self; L := L self; current := c;
     Y := Y self; V := V self |}.
Definition set_Y (y : list Z) : M unit := fun self => Ret tt (with_Y y self).
Definition set_current (c : Z) : M unit := fun self => Ret tt (with_current c self).

(** A [for] loop over [l] whose body updates the generator and the local
    variable [acc]. *)
Fixpoint for_ {Acc B : Type} (body : Acc -> B -> M Acc) (acc : Acc) (l : list B)
  : M Acc :=
  match l with
  | [] => mret acc
  | x :: l' => acc' ← body acc x; for_ body acc' l'
  end.

(** [float(y / math.pow(2, scale))] *)
Definition coordinate (sc y : Z) : Q := (inject_Z y / Qpower 2 sc)%Q.

(** ** index_of_least_significant_zero_bit *)

(** The [while] loop of the method: [fuel] bounds the number of tests of the
    loop condition, [None] means that the loop is still running. *)
Fixpoint lsz_loop (fuel : nat) (value index : Z) : option Z :=
  match fuel with
  | O => None
  | S fuel' =>
      if negb (Z.land value 1 =? 0)
      then lsz_loop fuel' (Z.shiftr value 1) (index + 1)
      else Some index
  end.

Definition index_of_least_significant_zero_bit (fuel : nat) (value : Z) : option Z :=
  lsz_loop fuel value 1.

Section Sobol.

(** The direction-number table of module [directions]. *)
Variable directions : list (list Z).

(** ** generate_V *)

(** [[m[j] << (scale - j) for j in range(1, hi)]]: a shift of array entries,
    which raises nothing (the count is negative only if [scale < L]). *)
Definition seed_column (m : list Z) (sc hi : Z) : result (list Z) :=
  mapM (fun j => mj ← getitem m j; mret (Z.shiftl mj (sc - j))) (range 1 hi).

(** The body of [for k in range(1, s)]. *)
Definition lag_step (m : list Z) (s i j : Z) (V : matrix) (k : Z) : result matrix :=
  old ← mget V j (i + 1);
  m0 ← getitem m 0;
  lag ← mget V (j - k) (i + 1);
  mset V j (i + 1) (Z.lxor old (Z.land (Z.shiftr m0 (s - 1 - k)) 1 * lag)).

(** The body of [for j in range(s + 1, L + 1)]. *)
Definition recurrence_step (m : list Z) (s i : Z) (V : matrix) (j : Z) : result matrix :=
  a ← mget V (j - s) (i + 1);
  b ← mget V (j - s) (i + 1);
  V ← mset V j (i + 1) (Z.lxor a (Z.shiftr b s));
  foldM (lag_step m s i j) V (range 1 s).

(** The body of [for i in range(n_dimensions - 1)]. *)
Definition column_step (sc l : Z) (V : matrix) (i : Z) : result matrix :=
  m ← getitem directions i;
  let s := Z.of_nat (length m) - 1 in
  if l <=? s then
    vals ← seed_column m sc (l + 1);
    assign_col V 1 (Z.of_nat (length V)) (i + 1) vals
  else
    vals ← seed_column m sc (s + 1);
    V ← assign_col V 1 (s + 1) (i + 1) vals;
    foldM (recurrence_step m s i) V (range (s + 1) (l + 1)).

(** The method reads [self.n_dimensions], [self.scale] and [self.L]. *)
Definition generate_V (n_dims sc l : Z) : result matrix :=
  V ← zeros (l + 1) n_dims;
  col0 ← mapM (fun j => lshift 1 (sc - j)) (range 1 (l + 1));
  V ← assign_col V 1 (Z.of_nat (length V)) 0 col0;
  foldM (column_step sc l) V (range 0 (n_dims - 1)).

(** ** __init__ *)

Definition not_enough_dimensions : exn :=
  ValueError "Error in Sobol sequence: not enough dimensions".
Definition not_enough_bits : exn :=
  ValueError "Error in Sobol sequence: not enough bits".

Definition default_scale : Z := 31.

Definition __init__ (n_samp n_dims sc : Z) : result SobolSample :=
  if n_dims >? Z.of_nat (length directions) + 1 then Err not_enough_dimensions
  else
    l ← ceil_log2 n_samp;
    if l >? sc then Err not_enough_bits
    else
      let y := replicate (Z.to_nat n_dims) 0 in
      v ← generate_V n_dims sc l;
      mret {| n_samples := n_samp; n_dimensions := n_dims; scale := sc; L := l;
              current := 0; Y := y; V := v |}.

(** ** generate_sample *)

(** The body of [for i in range(self.n_dimensions)]. *)
Definition sample_step (fuel : nat) (sample_one : list Q) (i : Z) : M (list Q) :=
  self ← get;
  yi ← lift (getitem (Y self) i);
  idx ← loop_result (index_of_least_significant_zero_bit fuel (current self - 1));
  v ← lift (mget (V self) idx i);
  y' ← lift (setitem (Y self) i (Z.lxor yi v));
  _ ← set_Y y';
  self ← get;
  yi' ← lift (getitem (Y self) i);
  lift (setitem sample_one i (coordinate (scale self) yi')).

Definition generate_sample (fuel : nat) : M (list Q) :=
  self ← get;
  let sample_one := replicate (Z.to_nat (n_dimensions self)) 0%Q in
  sample_one ← for_ (sample_step fuel) sample_one (range 0 (n_dimensions self));
  self ← get;
  _ ← set_current (current self + 1);
  mret sample_one.

(** ** __iter__ *)

(** A reference to an object of the class.  The methods see one object, the
    generator that the monad threads, and [__iter__] returns that object:
    the iterator of a generator is the generator. *)
Inductive reference : Type := Self.

Definition __iter__ : M reference := mret Self.

(** ** __next__ *)

(** The object that [__next__] hands out: the array [self.Y] itself, which
    later calls keep updating in place, or a new array. *)
Inductive sample : Type :=
| TheY
| Fresh (a : list Q).

Definition __next__ (fuel : nat) : M sample :=
  self ← get;
  if current self >? n_samples self - 1 then raise StopIteration
  else if current self =? 0 then
    _ ← set_current 1;
    mret TheY
  else
    a ← generate_sample fuel;
    mret (Fresh a).

(** ** generate_all_samples *)

(** The local variable [X]: the integer [0] before the loop, an array of its
    own from the first [X ^= V[...]] on. *)
Inductive accumulator : Type :=
| IntAcc (x : Z)
| ArrAcc (a : list Z).

(** [X ^= row]; the rows of [V] have one length, that of [X]. *)
Definition ixor (X : accumulator) (row : list Z) : result (list Z) :=
  match X with
  | IntAcc x => Ok (Z.lxor x <$> row)
  | ArrAcc a =>
      if bool_decide (length a = length row) then Ok (zip_with Z.lxor a row)
      else Err (ValueError "operands could not be broadcast together")
  end.

(** [sample_all[j][:] = vals], one value per column. *)
Definition assign_row (sample_all : list (list Q)) (j : Z) (vals : list Q)
  : result (list (list Q)) :=
  row ← getitem sample_all j;
  if bool_decide (length row = length vals) then setitem sample_all j vals
  else Err (ValueError "could not broadcast input array").

(** The body of [for j in range(1, n_samples)]. *)
Definition bulk_step (fuel : nat) (st : accumulator * list (list Q)) (j : Z)
  : M (accumulator * list (list Q)) :=
  self ← get;
  idx ← loop_result (index_of_least_significant_zero_bit fuel (j - 1));
  row ← lift (getitem (V self) idx);
  x ← lift (ixor st.1 row);
  sample_all ← lift (assign_row st.2 j (coordinate (scale self) <$> x));
  mret (ArrAcc x, sample_all).

Definition generate_all_samples (fuel : nat) : M (list (list Q)) :=
  self ← get;
  let sample_all :=
    replicate (Z.to_nat (n_samples self)) (replicate (Z.to_nat (n_dimensions self)) 0%Q) in
  st ← for_ (bulk_step fuel) (IntAcc 0, sample_all) (range 1 (n_samples self));
  mret st.2.

End Sobol.

(** The first rows of the Joe-Kuo table, one row [[a; m_1; ...; m_s]] per
    dimension, for the examples. *)
Definition joe_kuo : list (list Z) :=
  [ [0; 1]; [1; 1; 3]; [1; 1; 3; 1]; [2; 1; 1; 1]; [1; 1; 1; 3; 3]; [4; 1; 3; 5; 13] ].

(** ** The callers of the sequential producer *)

(** The values that a caller finds in the object [o] when the generator is
    in the state [self]: [TheY] is read through the generator. *)
Definition read (self : SobolSample) (o : sample) : list Q :=
  match o with
  | TheY => inject_Z <$> Y self
  | Fresh a => a
  end.

(** [[next(g) for _ in range(k)]]: the objects are kept as they are. *)
Fixpoint collect (fuel : nat) (k : nat) : M (list sample) :=
  match k with
  | O => mret []
  | S k' => o ← __next__ fuel; rest ← collect fuel k'; mret (o :: rest)
  end.

(** The matrix that the caller then finds in the collected objects. *)
Definition collected (fuel : nat) (k : nat) : M (list (list Q)) :=
  os ← collect fuel k; self ← get; mret (read self <$> os).

(** A caller that copies the values of each object as soon as [__next__]
    has returned it. *)
Fixpoint snapshots (fuel : nat) (k : nat) : M (list (list Q)) :=
  match k with
  | O => mret []
  | S k' =>
      o ← __next__ fuel; self ← get;
      let row := read self o in
      rest ← snapshots fuel k'; mret (row :: rest)
  end.

(** The generator after [k] calls of [__next__], whether they returned or
    raised; [None] if one of them does not return. *)
Fixpoint state_after (fuel : nat) (k : nat) (self : SobolSample) : option SobolSample :=
  match k with
  | O => Some self
  | S k' =>
      match __next__ fuel self with
      | Ret _ self' => state_after fuel k' self'
      | Raise _ self' => state_after fuel k' self'
      | Diverge => None
      end
  end.

(** [for x in it], the objects kept in a list: [__next__] is called until it
    raises [StopIteration], which ends the loop; another exception leaves
    the loop.  [calls] bounds the number of calls of [__next__]. *)
Fixpoint exhaust (fuel : nat) (calls : nat) : M (list sample) :=
  match calls with
  | O => fun _ => Diverge
  | S calls' => fun self =>
      match __next__ fuel self with
      | Ret o self' => (rest ← exhaust fuel calls'; mret (o :: rest)) self'
      | Raise StopIteration self' => Ret [] self'
      | Raise e self' => Raise e self'
      | Diverge => Diverge
      end
  end.

(** [list(g)]: the loop runs on [iter(g)], the object that [__iter__]
    returns. *)
Definition list_of (fuel : nat) (calls : nat) : M (list sample) :=
  it ← __iter__;
  match it with
  | Self => exhaust fuel calls
  end.

(** Column [i] of a matrix of coordinates. *)
Definition column (i : nat) (rows : list (list Q)) : list Q :=
  (fun row => default 0%Q (row !! i)) <$> rows.

(** ** The accumulator, step by step *)

(** The index that the method returns on [v >= 0]. *)
Definition lsz (v : Z) : Z :=
  default 0 (index_of_least_significant_zero_bit (Z.to_nat (Z.log2 v) + 2) v).

(** [V[idx]] *)
Definition row_ (V : matrix) (idx : Z) : list Z := default [] (V !! Z.to_nat idx).

(** The accumulator after [j] steps: zero, then XORed with one row of [V]
    per step. *)
Fixpoint gray (V : matrix) (d : nat) (j : nat) : list Z :=
  match j with
  | O => replicate d 0
  | S j' => zip_with Z.lxor (gray V d j') (row_ V (lsz (Z.of_nat j')))
  end.

(** Sample [j] of the generator [g]. *)
Definition sobol_row (g : SobolSample) (j : nat) : list Q :=
  match j with
  | O => replicate (Z.to_nat (n_dimensions g)) 0%Q
  | S _ => coordinate (scale g) <$> gray (V g) (Z.to_nat (n_dimensions g)) j
  end.

(** The facts about a generator that no method changes. *)
Definition wf (g : SobolSample) : Prop :=
  1 <= n_samples g <= 2 ^ L g /\ 0 <= L g /\ 1 <= n_dimensions g /\
  shape (V g) (Z.to_nat (L g + 1)) (Z.to_nat (n_dimensions g)).

(** The generator [g], fresh, after [c] calls of [__next__] that returned. *)
Definition state_at (g : SobolSample) (c : nat) : SobolSample :=
  with_current (Z.of_nat c)
    (with_Y (gray (V g) (Z.to_nat (n_dimensions g)) (pred c)) g).

(** What the call number [c] (from 0) of [__next__] hands out. *)
Definition output (g : SobolSample) (c : nat) : sample :=
  match c with
  | O => TheY
  | S _ => Fresh (sobol_row g c)
  end.

(** A generator of two samples in one dimension after both have been
    handed out. *)
Definition exhausted_example : SobolSample :=
  {| n_samples := 2; n_dimensions := 1; scale := 31; L := 1; current := 2;
     Y := [1073741824]; V := [[0]; [1073741824]] |}.

(** The call that gave [o] on the generator [self] has left it as it was. *)
Definition same_generator {A : Type} (self : SobolSample) (o : outcome A) : Prop :=
  match o with
  | Ret _ self' => self' = self
  | Raise _ self' => self' = self
  | Diverge => True
  end.

(** Every table row has its leading word [a]: the degree [s = len(m) - 1]
    is not negative. *)
Definition nonempty_rows (directions : list (list Z)) : Prop :=
  Forall (fun m => m <> []) directions.

(** The seeds are direction numbers: [0 <= m_j < 2^j]. *)
Definition seeds_ok (directions : list (list Z)) : Prop :=
  Forall (fun m => forall j mj, (1 <= j)%nat -> m !! j = Some mj ->
                     0 <= mj < 2 ^ Z.of_nat j) directions.

(** Entry [i] of the accumulator after [j] steps. *)
Fixpoint gray_at (V : matrix) (i : Z) (j : nat) : Z :=
  match j with
  | O => 0
  | S j' => Z.lxor (gray_at V i j') (at_ V (lsz (Z.of_nat j')) i)
  end.

(** All coordinates of a matrix of samples lie in [[0, 1)]. *)
Definition in_unit_interval (rows : list (list Q)) : Prop :=
  Forall (Forall (fun q => (0 <= q < 1)%Q)) rows.

(** Two index pairs differ. *)
Ltac pair_ne := let E := fresh in intros E; injection E; intros; lia.

(** ** The direction numbers as the specification words them *)

(** [m[j] << (scale - j)] *)
Definition seed (m : list Z) (sc j : Z) : Z :=
  Z.shiftl (default 0 (m !! Z.to_nat j)) (sc - j).

(** Bit [n] of [x], as the number 0 or 1. *)
Definition bit (n x : Z) : Z := Z.b2z (Z.testbit x n).

(** [col(j-s) XOR (col(j-s) >> s)], further XORed, for [k = 1 .. s-1], with
    bit [s-1-k] of [m0] times [col(j-k)]. *)
Definition lag_xor (m0 s : Z) (col : Z -> Z) (j : Z) : Z :=
  foldl (fun acc k => Z.lxor acc (bit (s - 1 - k) m0 * col (j - k)))
        (Z.lxor (col (j - s)) (Z.shiftr (col (j - s)) s))
        (range 1 s).

(** The entries [col 0 .. col l] of the column built from the table row [m]. *)
Definition column_law (m : list Z) (sc l : Z) (col : Z -> Z) : Prop :=
  let s := Z.of_nat (length m) - 1 in
  col 0 = 0 /\
  (forall j, 1 <= j <= Z.min l s -> col j = seed m sc j) /\
  (forall j, s + 1 <= j <= l -> col j = lag_xor (default 0 (m !! 0%nat)) s col j).

(** ** The first dimension in closed form *)

(** The binary reflected Gray code of [j]. *)
Definition gray_code (j : Z) : Z := Z.lxor j (Z.shiftr j 1).

(** The [w] low bits of [x] in reverse order: bit [t] of [x] is bit
    [w - 1 - t] of the result. *)
Fixpoint reverse_bits (w : nat) (x : Z) : Z :=
  match w with
  | O => 0
  | S w' => bit 0 x * 2 ^ Z.of_nat w' + reverse_bits w' (Z.shiftr x 1)
  end.

(** ** Every dimension on the first [2^k] samples *)

(** Every table row has a seed and the seeds are odd. *)
Definition odd_seeds (directions : list (list Z)) : Prop :=
  Forall (fun m => (2 <= length m)%nat /\
                   forall j mj, (1 <= j)%nat -> m !! j = Some mj -> Z.odd mj = true)
         directions.

(** The XOR of the rows [r + 1] of column [i] of [V], over the bits [r < k]
    of [x] that are set. *)
Fixpoint xor_rows (V : matrix) (i x : Z) (k : nat) : Z :=
  match k with
  | O => 0
  | S r => Z.lxor (xor_rows V i x r) (bit (Z.of_nat r) x * at_ V (Z.of_nat r + 1) i)
  end.

(** * Properties *)

(** ** The least significant zero bit *)

Lemma land_1_testbit (v : Z) : (Z.land v 1 =? 0) = negb (Z.testbit v 0).
Proof.
  change 1 with (Z.ones 1). rewrite Z.land_ones by lia.
  change (2 ^ 1) with 2. rewrite <- Z.bit0_mod.
  destruct (Z.testbit v 0); reflexivity.
Qed.

Lemma lsz_loop_bits (fuel : nat) :
  forall v idx k, lsz_loop fuel v idx = Some k ->
    idx <= k /\
    (forall b, 0 <= b < k - idx -> Z.testbit v b = true) /\
    Z.testbit v (k - idx) = false.
Proof.
  induction fuel as [|fuel IH]; intros v idx k; simpl; [discriminate|].
  rewrite land_1_testbit, negb_involutive.
  destruct (Z.testbit v 0) eqn:E0.
  - intros H. apply IH in H as (Hle & Hones & Hzero).
    split; [lia|]. split.
    + intros b Hb. destruct (Z.eq_dec b 0) as [->|]; [assumption|].
      replace b with (b - 1 + 1) by lia.
      rewrite <- Z.shiftr_spec by lia. apply Hones. lia.
    + replace (k - idx) with (k - (idx + 1) + 1) by lia.
      rewrite <- Z.shiftr_spec by lia. assumption.
  - intros [= <-]. split; [lia|]. split; [intros; lia|].
    rewrite Z.sub_diag. assumption.
Qed.

Lemma lsz_loop_mono (fuel fuel' : nat) :
  forall v idx k, lsz_loop fuel v idx = Some k -> (fuel <= fuel')%nat ->
    lsz_loop fuel' v idx = Some k.
Proof.
  revert fuel'. induction fuel as [|fuel IH]; intros fuel' v idx k; simpl;
    [discriminate|].
  intros H Hle. destruct fuel' as [|fuel']; [lia|]. simpl.
  destruct (negb (Z.land v 1 =? 0)); [|assumption].
  apply IH; [assumption|lia].
Qed.

Lemma odd_shiftr (v : Z) : Z.testbit v 0 = true -> v = 2 * Z.shiftr v 1 + 1.
Proof.
  intros H. rewrite Z.shiftr_div_pow2 by lia. change (2 ^ 1) with 2.
  rewrite Z.bit0_odd in H. apply Z.odd_spec in H as [q ->].
  replace (2 * q + 1) with (1 + q * 2) by lia.
  rewrite Z.div_add by lia. change (1 / 2) with 0. lia.
Qed.

(** The loop stops on every integer but [-1]. *)
Lemma lsz_loop_stops (f : nat) :
  forall v idx, - 2 ^ Z.of_nat f <= v < 2 ^ Z.of_nat f -> v <> -1 ->
    exists k, lsz_loop (S f) v idx = Some k.
Proof.
  induction f as [|f IH]; intros v idx Hv Hne.
  - assert (v = 0) as -> by (simpl in Hv; lia). simpl. eauto.
  - remember (S f) as f' eqn:Ef. simpl.
    rewrite land_1_testbit, negb_involutive.
    destruct (Z.testbit v 0) eqn:E0; [|eauto].
    subst f'. apply IH.
    + apply odd_shiftr in E0. rewrite Nat2Z.inj_succ, Z.pow_succ_r in Hv by lia. lia.
    + apply odd_shiftr in E0. lia.
Qed.

(** It never stops on [-1]: all bits are ones. *)
Lemma lsz_loop_minus_one (fuel : nat) : forall idx, lsz_loop fuel (-1) idx = None.
Proof.
  induction fuel as [|fuel IH]; intros idx; [reflexivity|].
  simpl. change (Z.shiftr (-1) 1) with (-1). apply IH.
Qed.

(** Below [2^f - 1] one of the [f] low bits is zero. *)
Lemma lsz_loop_bound (fuel : nat) :
  forall (f : nat) v idx k, 0 <= v < 2 ^ Z.of_nat f - 1 ->
    lsz_loop fuel v idx = Some k -> idx <= k < idx + Z.of_nat f.
Proof.
  induction fuel as [|fuel IH]; intros f v idx k Hv; simpl; [discriminate|].
  rewrite land_1_testbit, negb_involutive.
  destruct (Z.testbit v 0) eqn:E0.
  - intros H. apply odd_shiftr in E0.
    destruct f as [|f]; [simpl in Hv; lia|].
    rewrite Nat2Z.inj_succ, Z.pow_succ_r in Hv by lia.
    apply (IH f) in H; lia.
  - intros [= <-]. destruct f as [|f]; [simpl in Hv; lia|]. lia.
Qed.

Lemma lsz_fuel (v : Z) (fuel : nat) (idx : Z) :
  0 <= v -> (Z.to_nat (Z.log2 v) + 2 <= fuel)%nat ->
  exists k, lsz_loop fuel v idx = Some k.
Proof.
  intros Hv Hfuel.
  destruct (lsz_loop_stops (S (Z.to_nat (Z.log2 v))) v idx) as [k Hk].
  - rewrite Nat2Z.inj_succ, Z2Nat.id by apply Z.log2_nonneg.
    destruct (Z.eq_dec v 0) as [->|]; [simpl; lia|].
    pose proof (Z.log2_spec v ltac:(lia)). lia.
  - lia.
  - exists k. eapply lsz_loop_mono; [eassumption|lia].
Qed.

(** C4: on every non-negative [v] the method returns the 1-based index [k]
    of the lowest zero bit: bits [0 .. k-2] of [v] are ones and bit [k-1] is
    zero; it returns 1, 2, 3, 4 on 0, 1, 3, 7. *)
Theorem index_of_least_significant_zero_bit_spec :
  (forall v fuel, 0 <= v -> (Z.to_nat (Z.log2 v) + 2 <= fuel)%nat ->
     exists k, index_of_least_significant_zero_bit fuel v = Some k /\
       1 <= k /\
       (forall b, 0 <= b <= k - 2 -> Z.testbit v b = true) /\
       Z.testbit v (k - 1) = false) /\
  index_of_least_significant_zero_bit 2 0 = Some 1 /\
  index_of_least_significant_zero_bit 2 1 = Some 2 /\
  index_of_least_significant_zero_bit 3 3 = Some 3 /\
  index_of_least_significant_zero_bit 4 7 = Some 4.
Proof.
  split; [|repeat split].
  intros v fuel Hv Hfuel. unfold index_of_least_significant_zero_bit.
  destruct (lsz_fuel v fuel 1 Hv Hfuel) as [k Hk].
  exists k. split; [assumption|].
  apply lsz_loop_bits in Hk as (H1 & Hones & Hzero).
  split; [assumption|]. split; [|assumption].
  intros b Hb. apply Hones. lia.
Qed.

Lemma index_of_least_significant_zero_bit_spec_witness :
  exists k, index_of_least_significant_zero_bit 5 11 = Some k /\
    1 <= k /\
    (forall b, 0 <= b <= k - 2 -> Z.testbit 11 b = true) /\
    Z.testbit 11 (k - 1) = false.
Proof.
  apply (proj1 index_of_least_significant_zero_bit_spec 11 5%nat).
  - lia.
  - vm_compute. lia.
Defined.

(** ** Indexing, loops and matrices *)

Lemma py_index_in (len : nat) (i : Z) :
  0 <= i < Z.of_nat len -> py_index len i = Some (Z.to_nat i).
Proof.
  intros H. unfold py_index.
  destruct (Z.leb_spec 0 i); [|lia]. destruct (Z.ltb_spec i (Z.of_nat len)); [|lia].
  reflexivity.
Qed.

Lemma getitem_ok {A : Type} (l : list A) (i : Z) (x : A) :
  0 <= i -> l !! Z.to_nat i = Some x -> getitem l i = Ok x.
Proof.
  intros Hi Hx. unfold getitem.
  rewrite py_index_in, Hx; [reflexivity|].
  apply lookup_lt_Some in Hx. lia.
Qed.

Lemma getitem_out {A : Type} (l : list A) (i : Z) :
  Z.of_nat (length l) <= i -> getitem l i = Err IndexError.
Proof.
  intros H. unfold getitem, py_index.
  destruct (Z.ltb_spec i (Z.of_nat (length l))); [lia|].
  destruct (Z.ltb_spec i 0); [lia|]. rewrite !andb_false_r. reflexivity.
Qed.

Lemma setitem_ok {A : Type} (l : list A) (i : Z) (x : A) :
  0 <= i < Z.of_nat (length l) -> setitem l i x = Ok (<[Z.to_nat i := x]> l).
Proof. intros H. unfold setitem. rewrite py_index_in by assumption. reflexivity. Qed.

Lemma range_length (a b : Z) : length (range a b) = Z.to_nat (b - a).
Proof. unfold range. apply length_seqZ. Qed.

Lemma range_lookup (a b : Z) (n : nat) (x : Z) :
  range a b !! n = Some x <-> x = a + Z.of_nat n /\ a + Z.of_nat n < b.
Proof. unfold range. rewrite lookup_seqZ. lia. Qed.

Lemma range_snoc (a b : Z) : a <= b -> range a (b + 1) = range a b ++ [b].
Proof.
  intros H. unfold range.
  replace (b + 1 - a) with (b - a + 1) by lia.
  rewrite seqZ_app by lia. simpl.
  replace (a + (b - a)) with b by lia. reflexivity.
Qed.

Lemma range_app (a b c : Z) : a <= b <= c -> range a c = range a b ++ range b c.
Proof.
  intros H. unfold range.
  replace (c - a) with ((b - a) + (c - b)) by lia.
  rewrite seqZ_app by lia. do 2 f_equal. lia.
Qed.

Lemma range_nil (a b : Z) : b <= a -> range a b = [].
Proof.
  intros H. unfold range, seqZ.
  replace (Z.to_nat (b - a)) with 0%nat by lia. reflexivity.
Qed.

Lemma foldM_app {St B : Type} (f : St -> B -> result St) (l1 l2 : list B) (s : St) :
  foldM f s (l1 ++ l2) = (s' ← foldM f s l1; foldM f s' l2).
Proof.
  revert s. induction l1 as [|x l1 IH]; intros s; simpl; [reflexivity|].
  destruct (f s x); simpl; [apply IH|reflexivity].
Qed.

(** Invariant rule for [foldM]: [I n s] holds of the state before the
    iteration on the [n]-th element. *)
Lemma foldM_inv {St B : Type} (f : St -> B -> result St) (I : nat -> St -> Prop)
    (l : list B) (s0 : St) :
  I 0%nat s0 ->
  (forall n x s, l !! n = Some x -> I n s -> exists s', f s x = Ok s' /\ I (S n) s') ->
  exists s', foldM f s0 l = Ok s' /\ I (length l) s'.
Proof.
  revert I s0. induction l as [|x l IH]; intros I s0 H0 Hstep; simpl.
  - eauto.
  - destruct (Hstep 0%nat x s0 eq_refl H0) as (s1 & -> & H1). simpl.
    apply (IH (fun n => I (S n))); [assumption|].
    intros n y s Hy. apply (Hstep (S n)). assumption.
Qed.

Lemma mapM_ok {A B : Type} (f : A -> result B) (g : A -> B) (l : list A) :
  (forall x, x ∈ l -> f x = Ok (g x)) -> mapM f l = Ok (g <$> l).
Proof.
  induction l as [|x l IH]; intros H; simpl; [reflexivity|].
  rewrite (H x) by left. simpl.
  rewrite IH by (intros y Hy; apply H; right; assumption). reflexivity.
Qed.

Lemma shape_lookup (V : matrix) (r c : nat) (j : nat) (row : list Z) :
  shape V r c -> V !! j = Some row -> length row = c.
Proof.
  intros [_ Hall] Hrow. rewrite Forall_lookup in Hall. exact (Hall j row Hrow).
Qed.

Lemma mget_ok (V : matrix) (r c : nat) (j i : Z) :
  shape V r c -> 0 <= j < Z.of_nat r -> 0 <= i < Z.of_nat c ->
  mget V j i = Ok (at_ V j i).
Proof.
  intros Hs Hj Hi. unfold mget, at_.
  destruct (lookup_lt_is_Some_2 V (Z.to_nat j)) as [row Hrow];
    [destruct Hs; lia|].
  rewrite (getitem_ok V j row) by (assumption || lia). simpl.
  pose proof (shape_lookup _ _ _ _ _ Hs Hrow) as Hlen.
  destruct (lookup_lt_is_Some_2 row (Z.to_nat i)) as [x Hx]; [lia|].
  rewrite (getitem_ok row i x) by (assumption || lia).
  rewrite Hrow. simpl. rewrite Hx. reflexivity.
Qed.

Lemma at_out_row (V : matrix) (j i : Z) :
  Z.of_nat (length V) <= j -> at_ V j i = 0.
Proof.
  intros H. unfold at_. rewrite lookup_ge_None_2 by lia. reflexivity.
Qed.

(** [V[j, i] = x] changes the entry [(j, i)] and nothing else. *)
Lemma mset_ok (V : matrix) (r c : nat) (j i x : Z) :
  shape V r c -> 0 <= j < Z.of_nat r -> 0 <= i < Z.of_nat c ->
  exists V', mset V j i x = Ok V' /\ shape V' r c /\
    at_ V' j i = x /\
    (forall j' i', 0 <= j' -> 0 <= i' -> (j', i') <> (j, i) ->
       at_ V' j' i' = at_ V j' i').
Proof.
  intros Hs Hj Hi. unfold mset.
  destruct (lookup_lt_is_Some_2 V (Z.to_nat j)) as [row Hrow];
    [destruct Hs; lia|].
  pose proof (shape_lookup _ _ _ _ _ Hs Hrow) as Hlen.
  rewrite (getitem_ok V j row) by (assumption || lia). simpl.
  rewrite setitem_ok by lia. simpl.
  rewrite setitem_ok by (destruct Hs; lia).
  eexists. split; [reflexivity|].
  destruct Hs as [Hr Hall].
  split; [|split].
  - split; [rewrite length_insert; assumption|].
    apply Forall_insert; [assumption|]. rewrite length_insert. assumption.
  - unfold at_. rewrite list_lookup_insert_eq by lia. simpl.
    rewrite list_lookup_insert_eq by lia. reflexivity.
  - intros j' i' Hj' Hi' Hne. unfold at_.
    destruct (Z.eq_dec j' j) as [->|Hjj].
    + rewrite list_lookup_insert_eq by lia. rewrite Hrow. simpl.
      rewrite list_lookup_insert_ne; [reflexivity|].
      intros E. apply Hne. f_equal. lia.
    + rewrite list_lookup_insert_ne by lia. reflexivity.
Qed.

(** [V[lo:hi, c] = vals] writes the values, in order, into the rows of the
    slice and changes nothing else. *)
Lemma assign_col_ok (V : matrix) (r c : nat) (lo hi col : Z) (vals : list Z) :
  shape V r c -> (0 < r)%nat -> 0 <= lo -> 0 <= col < Z.of_nat c ->
  length vals = Z.to_nat (Z.min hi (Z.of_nat r) - lo) ->
  exists V', assign_col V lo hi col vals = Ok V' /\ shape V' r c /\
    (forall j i, 0 <= j -> 0 <= i ->
       at_ V' j i =
         if decide (i = col /\ lo <= j < Z.min hi (Z.of_nat r))
         then default 0 (vals !! Z.to_nat (j - lo))
         else at_ V j i).
Proof.
  intros Hs Hr Hlo Hcol Hlen. unfold assign_col.
  destruct V as [|row0 V0] eqn:EV; [destruct Hs as [Hs _]; simpl in Hs; lia|].
  rewrite <- EV in *.
  assert (length row0 = c) as Hrow0
    by (apply (shape_lookup V r c 0%nat); [assumption|rewrite EV; reflexivity]).
  assert (length V = r) as HlenV by apply Hs.
  rewrite py_index_in by lia. rewrite HlenV.
  rewrite bool_decide_eq_true_2 by (rewrite range_length; lia).
  set (hi' := Z.min hi (Z.of_nat r)) in *.
  destruct (foldM_inv (fun V' jx => mset V' jx.1 col jx.2)
    (fun n V' => shape V' r c /\
       forall j i, 0 <= j -> 0 <= i ->
         at_ V' j i =
           if decide (i = col /\ lo <= j < lo + Z.of_nat n)
           then default 0 (vals !! Z.to_nat (j - lo))
           else at_ V j i)
    (zip (range lo hi') vals) V) as (V' & HV' & Hsh & Hat).
  - split; [assumption|]. intros j i Hj Hi.
    destruct (decide _) as [[_ ?]|]; [lia|reflexivity].
  - intros n [jx x] W Hzip [HshW0 HatW].
    apply lookup_zip_with_Some in Hzip as (jx' & x' & [= <- <-] & Hjx & Hx).
    apply range_lookup in Hjx as [-> Hlt]. simpl.
    destruct (mset_ok W r c (lo + Z.of_nat n) col x) as (W' & -> & HshW & Hnew & Hold);
      [assumption|lia|lia|].
    exists W'. split; [reflexivity|]. split; [assumption|].
    intros j i Hj Hi.
    destruct (decide (i = col /\ j = lo + Z.of_nat n)) as [[-> ->]|Hne].
    + rewrite Hnew. rewrite decide_True by lia.
      replace (Z.to_nat (lo + Z.of_nat n - lo)) with n by lia.
      rewrite Hx. reflexivity.
    + rewrite Hold by (assumption || (intros [= ? ?]; lia)).
      rewrite HatW by assumption.
      destruct (decide (i = col /\ lo <= j < lo + Z.of_nat n)) as [?|?];
        [rewrite decide_True by lia; reflexivity|].
      rewrite decide_False by lia. reflexivity.
  - exists V'. split; [assumption|]. split; [assumption|].
    intros j i Hj Hi. rewrite Hat by assumption.
    rewrite length_zip_with, range_length, Hlen, Nat.min_id.
    destruct (decide (i = col /\ lo <= j < hi')) as [?|?].
    + rewrite decide_True by lia. reflexivity.
    + rewrite decide_False by lia. reflexivity.
Qed.

(** ** The direction-number matrix *)

Lemma land_shiftr_bit (x n : Z) : 0 <= n -> Z.land (Z.shiftr x n) 1 = bit n x.
Proof.
  intros Hn. unfold bit.
  change 1 with (Z.ones 1). rewrite Z.land_ones by lia.
  change (2 ^ 1) with 2. rewrite <- Z.bit0_mod.
  rewrite Z.shiftr_spec by lia. reflexivity.
Qed.

Lemma foldl_ext_in {A B : Type} (f g : A -> B -> A) (l : list B) (a : A) :
  (forall acc x, x ∈ l -> f acc x = g acc x) -> foldl f a l = foldl g a l.
Proof.
  revert a. induction l as [|x l IH]; intros a H; simpl; [reflexivity|].
  rewrite H by left. apply IH. intros acc y Hy. apply H. right. assumption.
Qed.

Lemma elem_of_range (a b x : Z) : x ∈ range a b <-> a <= x < b.
Proof. unfold range. rewrite elem_of_seqZ. lia. Qed.

(** [lag_xor] at row [j] reads the column at the rows [j-s .. j-1] only
    (at row [j] itself when [s = 0]). *)
Lemma lag_xor_ext (m0 s : Z) (col col' : Z -> Z) (j : Z) :
  (forall r, j - s <= r -> r <= Z.max (j - 1) (j - s) -> col r = col' r) ->
  lag_xor m0 s col j = lag_xor m0 s col' j.
Proof.
  intros H. unfold lag_xor. rewrite (H (j - s)) by lia.
  apply foldl_ext_in. intros acc k Hk%elem_of_range.
  rewrite (H (j - k)) by lia. reflexivity.
Qed.

Lemma seed_column_ok (m : list Z) (sc hi : Z) :
  hi <= Z.of_nat (length m) ->
  seed_column m sc hi = Ok (seed m sc <$> range 1 hi).
Proof.
  intros H. unfold seed_column. apply mapM_ok.
  intros j Hj%elem_of_range. unfold seed.
  destruct (lookup_lt_is_Some_2 m (Z.to_nat j)) as [mj Hmj]; [lia|].
  rewrite (getitem_ok m j mj) by (assumption || lia). rewrite Hmj. reflexivity.
Qed.

Lemma lag_xor_zero (m0 : Z) (col : Z -> Z) (j : Z) :
  col j = 0 -> lag_xor m0 0 col j = 0.
Proof.
  intros H. unfold lag_xor. rewrite range_nil by lia. simpl.
  rewrite Z.sub_0_r, H. reflexivity.
Qed.

Section Column.

Variables (m : list Z) (m0 : Z) (s i : Z) (r c : nat).
Hypothesis Hm0 : m !! 0%nat = Some m0.
Hypothesis Hs : 0 <= s.
Hypothesis Hi : 0 <= i + 1 < Z.of_nat c.

(** The loop over [k] folds the lag terms into the entry [(j, i+1)]. *)
Lemma lag_loop_ok (V : matrix) (j : Z) :
  shape V r c -> s < j < Z.of_nat r ->
  exists V', foldM (lag_step m s i j) V (range 1 s) = Ok V' /\ shape V' r c /\
    at_ V' j (i + 1) =
      foldl (fun acc k => Z.lxor acc (bit (s - 1 - k) m0 * at_ V (j - k) (i + 1)))
            (at_ V j (i + 1)) (range 1 s) /\
    (forall j' i', 0 <= j' -> 0 <= i' -> (j', i') <> (j, i + 1) ->
       at_ V' j' i' = at_ V j' i').
Proof using Hm0 Hs Hi.
  intros Hsh Hj.
  destruct (foldM_inv (lag_step m s i j)
    (fun n W => shape W r c /\
       at_ W j (i + 1) =
         foldl (fun acc k => Z.lxor acc (bit (s - 1 - k) m0 * at_ V (j - k) (i + 1)))
               (at_ V j (i + 1)) (take n (range 1 s)) /\
       (forall j' i', 0 <= j' -> 0 <= i' -> (j', i') <> (j, i + 1) ->
          at_ W j' i' = at_ V j' i'))
    (range 1 s) V) as (V' & HV' & HshV' & Hval & Hother).
  - split; [assumption|]. split; [reflexivity|]. intros; reflexivity.
  - intros n k W Hk (HshW & HvalW & HotherW).
    pose proof Hk as Hk'. apply range_lookup in Hk' as [-> Hlt].
    unfold lag_step.
    rewrite (mget_ok W r c) by (assumption || lia). simpl.
    rewrite (getitem_ok m 0 m0) by (assumption || lia). simpl.
    rewrite (mget_ok W r c) by (assumption || lia). simpl.
    destruct (mset_ok W r c j (i + 1)
      (Z.lxor (at_ W j (i + 1))
         (Z.land (Z.shiftr m0 (s - 1 - (1 + Z.of_nat n))) 1 *
            at_ W (j - (1 + Z.of_nat n)) (i + 1))))
      as (W' & -> & HshW' & Hnew & Hold); [assumption|lia|lia|].
    exists W'. split; [reflexivity|]. split; [assumption|]. split.
    + rewrite Hnew. rewrite (take_S_r _ _ _ Hk), foldl_app. simpl.
      rewrite <- HvalW. rewrite land_shiftr_bit by lia.
      rewrite (HotherW (j - (1 + Z.of_nat n)) (i + 1)) by (lia || pair_ne).
      reflexivity.
    + intros j' i' Hj' Hi' Hne. rewrite Hold by assumption. apply HotherW; assumption.
  - exists V'. split; [assumption|]. split; [assumption|].
    rewrite firstn_all in Hval. split; assumption.
Qed.

(** One iteration of the loop over [j]: row [j] of the column gets its
    recurrence value, computed from the rows above it. *)
Lemma recurrence_step_ok (V : matrix) (j : Z) :
  shape V r c -> s + 1 <= j < Z.of_nat r ->
  exists V', recurrence_step m s i V j = Ok V' /\ shape V' r c /\
    at_ V' j (i + 1) = lag_xor m0 s (fun j' => at_ V j' (i + 1)) j /\
    (forall j' i', 0 <= j' -> 0 <= i' -> (j', i') <> (j, i + 1) ->
       at_ V' j' i' = at_ V j' i').
Proof using Hm0 Hs Hi.
  intros Hsh Hj. unfold recurrence_step.
  rewrite (mget_ok V r c) by (assumption || lia). simpl.
  set (a := at_ V (j - s) (i + 1)).
  destruct (mset_ok V r c j (i + 1) (Z.lxor a (Z.shiftr a s)))
    as (V1 & -> & HshV1 & Hnew & Hold); [assumption|lia|lia|]. simpl.
  destruct (lag_loop_ok V1 j) as (V' & -> & HshV' & Hval & Hother);
    [assumption|lia|].
  exists V'. split; [reflexivity|]. split; [assumption|]. split.
  - rewrite Hval, Hnew. unfold lag_xor. fold a.
    apply foldl_ext_in. intros acc k Hk%elem_of_range.
    rewrite Hold by (lia || pair_ne). reflexivity.
  - intros j' i' Hj' Hi' Hne. rewrite Hother by assumption. apply Hold; assumption.
Qed.

(** The loop over [j] fills the rows [s+1 .. l] of the column, top down;
    every row satisfies the recurrence in the final matrix. *)
Lemma recurrence_loop_ok (V : matrix) (l : Z) :
  shape V r c -> Z.of_nat r = l + 1 ->
  (forall j, s + 1 <= j <= l -> at_ V j (i + 1) = 0) ->
  exists V', foldM (recurrence_step m s i) V (range (s + 1) (l + 1)) = Ok V' /\
    shape V' r c /\
    (forall j' i', 0 <= j' -> 0 <= i' -> i' <> i + 1 \/ j' <= s ->
       at_ V' j' i' = at_ V j' i') /\
    (forall j, s + 1 <= j <= l ->
       at_ V' j (i + 1) = lag_xor m0 s (fun j' => at_ V' j' (i + 1)) j).
Proof using Hm0 Hs Hi.
  intros Hsh Hr Hzero.
  destruct (foldM_inv (recurrence_step m s i)
    (fun n W => shape W r c /\
       (forall j' i', 0 <= j' -> 0 <= i' -> i' <> i + 1 \/ j' <= s ->
          at_ W j' i' = at_ V j' i') /\
       (forall j, s + 1 <= j < s + 1 + Z.of_nat n ->
          at_ W j (i + 1) = lag_xor m0 s (fun j' => at_ W j' (i + 1)) j) /\
       (forall j, s + 1 + Z.of_nat n <= j <= l -> at_ W j (i + 1) = 0))
    (range (s + 1) (l + 1)) V) as (V' & HV' & HshV' & Hother & Hrec & _).
  - split; [assumption|]. split; [intros; reflexivity|].
    split; [intros; lia|]. intros j Hj. apply Hzero. lia.
  - intros n j W Hj (HshW & HotherW & HrecW & HzeroW).
    apply range_lookup in Hj as [-> Hlt].
    destruct (recurrence_step_ok W (s + 1 + Z.of_nat n))
      as (W' & -> & HshW' & Hnew & Hold); [assumption|lia|].
    exists W'. split; [reflexivity|]. split; [assumption|].
    assert (at_ W' (s + 1 + Z.of_nat n) (i + 1) = at_ W (s + 1 + Z.of_nat n) (i + 1) \/
            0 < s) as Hrow.
    { destruct (Z.eq_dec s 0) as [E|]; [left|right; lia].
      rewrite Hnew. rewrite HzeroW by lia. subst s. apply lag_xor_zero.
      apply HzeroW. lia. }
    assert (forall j', 0 <= j' -> j' <= Z.max (s + Z.of_nat n) (Z.of_nat n + 1) ->
              at_ W' j' (i + 1) = at_ W j' (i + 1)) as Hsame.
    { intros j' Hj' Hle.
      destruct (Z.eq_dec j' (s + 1 + Z.of_nat n)) as [->|Hne];
        [destruct Hrow; [assumption|lia]|].
      apply Hold; [assumption|lia|pair_ne]. }
    split; [|split].
    + intros j' i' Hj' Hi' Hcase. rewrite Hold by (assumption || pair_ne).
      apply HotherW; assumption.
    + intros j Hj. destruct (Z.eq_dec j (s + 1 + Z.of_nat n)) as [->|Hne].
      * rewrite Hnew. apply lag_xor_ext. intros j' H1 H2. symmetry.
        apply Hsame; lia.
      * rewrite Hold by (lia || pair_ne). rewrite HrecW by lia.
        apply lag_xor_ext. intros j' H1 H2. symmetry. apply Hsame; lia.
    + intros j Hj. rewrite Hold by (lia || pair_ne). apply HzeroW. lia.
  - exists V'. split; [assumption|]. split; [assumption|]. split; [assumption|].
    intros j Hj. apply Hrec. rewrite range_length. lia.
Qed.

End Column.

Section GenerateV.

Variable directions : list (list Z).
Variables (sc l : Z) (c : nat).
Hypothesis Hl : 0 <= l.

(** One iteration of the loop over the dimensions: column [i+1], still zero,
    gets the direction numbers of the table row [i]; the other columns keep
    their entries. *)
Lemma column_step_ok (V : matrix) (i : Z) (m : list Z) :
  shape V (Z.to_nat (l + 1)) c -> 0 <= i -> i + 1 < Z.of_nat c ->
  directions !! Z.to_nat i = Some m -> m <> [] ->
  (forall j, 0 <= j -> at_ V j (i + 1) = 0) ->
  exists V', column_step directions sc l V i = Ok V' /\
    shape V' (Z.to_nat (l + 1)) c /\
    (forall j i', 0 <= j -> 0 <= i' -> i' <> i + 1 -> at_ V' j i' = at_ V j i') /\
    column_law m sc l (fun j => at_ V' j (i + 1)).
Proof using Hl.
  intros Hsh Hi Hic Hm Hne Hzero. unfold column_step.
  rewrite (getitem_ok directions i m) by assumption. simpl.
  assert (length V = Z.to_nat (l + 1)) as HlenV by apply Hsh.
  destruct m as [|m0 m'] eqn:Em; [congruence|]. rewrite <- Em in *.
  assert (0 <= Z.of_nat (length m) - 1) as Hs by (rewrite Em; simpl; lia).
  set (s := Z.of_nat (length m) - 1) in *.
  assert (forall hi j, 1 <= j < hi ->
            default 0 ((seed m sc <$> range 1 hi) !! Z.to_nat (j - 1)) = seed m sc j)
    as Hseed.
  { intros hi j Hj. rewrite list_lookup_fmap.
    rewrite (proj2 (range_lookup 1 hi (Z.to_nat (j - 1)) j)) by lia. reflexivity. }
  destruct (Z.leb_spec l s) as [Hls|Hls].
  - rewrite seed_column_ok by lia. simpl.
    destruct (assign_col_ok V (Z.to_nat (l + 1)) c 1 (Z.of_nat (length V)) (i + 1)
                (seed m sc <$> range 1 (l + 1)))
      as (V' & -> & HshV' & Hat); [assumption|lia|lia|lia| |].
    { rewrite length_fmap, range_length. lia. }
    exists V'. split; [reflexivity|]. split; [assumption|]. split.
    + intros j i' Hj Hi' Hne'. rewrite Hat by assumption.
      rewrite decide_False by lia. reflexivity.
    + unfold column_law. fold s. split; [|split].
      * rewrite Hat by lia. rewrite decide_False by lia. apply Hzero. lia.
      * intros j Hj. rewrite Hat by lia. rewrite decide_True by lia.
        apply Hseed. lia.
      * intros j Hj. lia.
  - rewrite seed_column_ok by lia. simpl.
    destruct (assign_col_ok V (Z.to_nat (l + 1)) c 1 (s + 1) (i + 1)
                (seed m sc <$> range 1 (s + 1)))
      as (V1 & -> & HshV1 & Hat); [assumption|lia|lia|lia| |].
    { rewrite length_fmap, range_length. lia. }
    simpl.
    destruct (recurrence_loop_ok m m0 s i (Z.to_nat (l + 1)) c
                ltac:(rewrite Em; reflexivity) Hs ltac:(lia) V1 l)
      as (V' & -> & HshV' & Hother & Hrec); [assumption|lia| |].
    { intros j Hj. rewrite Hat by lia. rewrite decide_False by lia.
      apply Hzero. lia. }
    exists V'. split; [reflexivity|]. split; [assumption|]. split.
    + intros j i' Hj Hi' Hne'. rewrite Hother by (assumption || lia).
      rewrite Hat by assumption. rewrite decide_False by lia. reflexivity.
    + unfold column_law. fold s. split; [|split].
      * rewrite Hother by lia. rewrite Hat by lia.
        rewrite decide_False by lia. apply Hzero. lia.
      * intros j Hj. rewrite Hother by lia. rewrite Hat by lia.
        rewrite decide_True by lia. apply Hseed. lia.
      * intros j Hj. rewrite Hrec by assumption.
        replace (default 0 (m !! 0%nat)) with m0 by (rewrite Em; reflexivity).
        reflexivity.
Qed.

Lemma at_zeros (rows cols : nat) (j i : Z) :
  at_ (replicate rows (replicate cols 0)) j i = 0.
Proof using Type.
  unfold at_.
  destruct (replicate rows (replicate cols 0) !! Z.to_nat j) as [row|] eqn:E;
    [|reflexivity].
  apply lookup_replicate in E as [-> _]. simpl.
  destruct (replicate cols 0 !! Z.to_nat i) as [x|] eqn:E'; [|reflexivity].
  apply lookup_replicate in E' as [-> _]. reflexivity.
Qed.

Lemma shape_zeros (rows cols : nat) : shape (replicate rows (replicate cols 0)) rows cols.
Proof using Type.
  split; [apply length_replicate|].
  apply Forall_replicate. apply length_replicate.
Qed.

(** The first [k] iterations of the loop over the dimensions. *)
Lemma columns_ok (V1 : matrix) (k : nat) :
  shape V1 (Z.to_nat (l + 1)) c -> Z.of_nat k + 1 <= Z.of_nat c ->
  (forall i j, 0 <= i -> 0 <= j -> at_ V1 j (i + 1) = 0) ->
  (forall i m, 0 <= i < Z.of_nat k -> directions !! Z.to_nat i = Some m -> m <> []) ->
  (k <= length directions)%nat ->
  exists V, foldM (column_step directions sc l) V1 (range 0 (Z.of_nat k)) = Ok V /\
    shape V (Z.to_nat (l + 1)) c /\
    (forall j, 0 <= j -> at_ V j 0 = at_ V1 j 0) /\
    (forall i m, 0 <= i < Z.of_nat k -> directions !! Z.to_nat i = Some m ->
       column_law m sc l (fun j => at_ V j (i + 1))) /\
    (forall i j, Z.of_nat k <= i -> 0 <= j -> at_ V j (i + 1) = 0).
Proof using Hl.
  intros HshV1 Hk Hzero Hrows Hlen.
  destruct (foldM_inv (column_step directions sc l)
    (fun n W => shape W (Z.to_nat (l + 1)) c /\
       (forall j, 0 <= j -> at_ W j 0 = at_ V1 j 0) /\
       (forall i m, 0 <= i < Z.of_nat n -> directions !! Z.to_nat i = Some m ->
          column_law m sc l (fun j => at_ W j (i + 1))) /\
       (forall i j, Z.of_nat n <= i -> 0 <= j -> at_ W j (i + 1) = 0))
    (range 0 (Z.of_nat k)) V1) as (V & HV & HshV & Hcol0 & Hlaw & Hrest).
  - split; [assumption|]. split; [reflexivity|]. split; [intros; lia|].
    intros i j Hi Hj. apply Hzero; lia.
  - intros n i W Hi (HshW & Hcol0W & HlawW & HzeroW).
    apply range_lookup in Hi as [-> Hlt]. rewrite Z.add_0_l in *.
    destruct (lookup_lt_is_Some_2 directions n) as [m Hm]; [lia|].
    destruct (column_step_ok W (Z.of_nat n) m) as (W' & -> & HshW' & Hother & Hnew);
      [assumption|lia|lia|rewrite Nat2Z.id; assumption| | |].
    { apply (Hrows (Z.of_nat n)); [lia|]. rewrite Nat2Z.id. assumption. }
    { intros j Hj. apply HzeroW; lia. }
    exists W'. split; [reflexivity|]. split; [assumption|]. split; [|split].
    + intros j Hj. rewrite Hother by lia. apply Hcol0W. assumption.
    + intros i m' Hi Hm'.
      destruct (Z.eq_dec i (Z.of_nat n)) as [->|Hne].
      * rewrite Nat2Z.id in Hm'. replace m' with m by congruence. assumption.
      * pose proof (HlawW i m' ltac:(lia) Hm') as (Hz0 & Hseed & Hrec).
        unfold column_law. split; [|split].
        -- rewrite Hother by lia. exact Hz0.
        -- intros j Hj. rewrite Hother by lia. apply Hseed. assumption.
        -- intros j Hj. rewrite Hother by lia. rewrite Hrec by assumption.
           apply lag_xor_ext. intros j' H1 H2. symmetry. apply Hother; lia.
    + intros i j Hi Hj. rewrite Hother by lia. apply HzeroW; lia.
  - rewrite range_length in *. replace (Z.to_nat (Z.of_nat k - 0)) with k in * by lia.
    exists V. repeat (split; [assumption|]). assumption.
Qed.

(** The matrix before the loop over the dimensions: zero but for column 0. *)
Lemma column0_ok (n_dims : Z) :
  l <= sc -> 1 <= n_dims -> Z.of_nat c = n_dims ->
  exists V1,
    (V ← zeros (l + 1) n_dims;
     col0 ← mapM (fun j => lshift 1 (sc - j)) (range 1 (l + 1));
     assign_col V 1 (Z.of_nat (length V)) 0 col0) = Ok V1 /\
    shape V1 (Z.to_nat (l + 1)) c /\
    (forall j, 0 <= j -> at_ V1 j 0 = if decide (1 <= j <= l) then 2 ^ (sc - j) else 0) /\
    (forall i j, 0 <= i -> 0 <= j -> at_ V1 j (i + 1) = 0).
Proof using Hl.
  intros Hsc Hn Hc. unfold zeros.
  destruct (Z.ltb_spec (l + 1) 0); [lia|]. destruct (Z.ltb_spec n_dims 0); [lia|].
  simpl.
  rewrite (mapM_ok _ (fun j => 2 ^ (sc - j))); cycle 1.
  { intros j Hj%elem_of_range. unfold lshift.
    destruct (Z.ltb_spec (sc - j) 0); [lia|]. rewrite Z.shiftl_1_l. reflexivity. }
  simpl. rewrite length_replicate. replace (Z.to_nat n_dims) with c by lia.
  destruct (assign_col_ok (replicate (Z.to_nat (l + 1)) (replicate c 0))
              (Z.to_nat (l + 1)) c 1 (Z.of_nat (Z.to_nat (l + 1))) 0
              ((fun j => 2 ^ (sc - j)) <$> range 1 (l + 1)))
    as (V1 & -> & HshV1 & Hat); [apply shape_zeros|lia|lia|lia| |].
  { rewrite length_fmap, range_length. lia. }
  exists V1. split; [reflexivity|]. split; [assumption|]. split.
  - intros j Hj. rewrite Hat by lia.
    destruct (decide (1 <= j <= l)) as [Hin|Hout].
    + rewrite decide_True by lia. rewrite list_lookup_fmap.
      rewrite (proj2 (range_lookup 1 (l + 1) (Z.to_nat (j - 1)) j)) by lia.
      reflexivity.
    + rewrite decide_False by lia. apply at_zeros.
  - intros i j Hi Hj. rewrite Hat by lia. rewrite decide_False by lia.
    apply at_zeros.
Qed.

Lemma generate_V_unfold (n_dims : Z) :
  generate_V directions n_dims sc l =
    (V1 ← (V ← zeros (l + 1) n_dims;
           col0 ← mapM (fun j => lshift 1 (sc - j)) (range 1 (l + 1));
           assign_col V 1 (Z.of_nat (length V)) 0 col0);
     foldM (column_step directions sc l) V1 (range 0 (n_dims - 1))).
Proof using Type.
  unfold generate_V.
  destruct (zeros (l + 1) n_dims) as [V0|e]; simpl; [|reflexivity].
  destruct (mapM _ _) as [col0|e]; simpl; reflexivity.
Qed.

(** [generate_V] returns; column 0 holds the powers of two and column [i+1]
    the direction numbers of the table row [i]. *)
Lemma generate_V_ok (n_dims : Z) :
  l <= sc -> 1 <= n_dims <= Z.of_nat (length directions) + 1 ->
  Z.of_nat c = n_dims ->
  (forall i m, 0 <= i < n_dims - 1 -> directions !! Z.to_nat i = Some m -> m <> []) ->
  exists V, generate_V directions n_dims sc l = Ok V /\
    shape V (Z.to_nat (l + 1)) c /\
    (forall j, 0 <= j -> at_ V j 0 = if decide (1 <= j <= l) then 2 ^ (sc - j) else 0) /\
    (forall i m, 0 <= i < n_dims - 1 -> directions !! Z.to_nat i = Some m ->
       column_law m sc l (fun j => at_ V j (i + 1))).
Proof using Hl.
  intros Hsc Hn Hc Hrows. rewrite generate_V_unfold.
  destruct (column0_ok n_dims) as (V1 & -> & HshV1 & Hcol0 & Hzero); [lia..|].
  simpl.
  destruct (columns_ok V1 (Z.to_nat (n_dims - 1)))
    as (V & HV & HshV & Hsame & Hlaw & _); [assumption|lia|assumption| |lia|].
  { intros i m Hi. apply Hrows. lia. }
  rewrite Z2Nat.id in HV by lia.
  exists V. split; [assumption|]. split; [assumption|]. split.
  - intros j Hj. rewrite Hsame by assumption. apply Hcol0. assumption.
  - intros i m Hi. apply Hlaw. lia.
Qed.

Lemma foldM_app_ok {St B : Type} (f : St -> B -> result St) (l1 l2 : list B) (s s' : St) :
  foldM f s (l1 ++ l2) = Ok s' ->
  exists s1, foldM f s l1 = Ok s1 /\ foldM f s1 l2 = Ok s'.
Proof using Type.
  rewrite foldM_app. destruct (foldM f s l1) as [s1|e]; simpl; [eauto|discriminate].
Qed.

(** On an empty table row the degree is [-1] and the recurrence reads row
    [L+1] of [V]: the method raises [IndexError]. *)
Lemma column_step_empty (V : matrix) (i : Z) :
  shape V (Z.to_nat (l + 1)) c -> 0 <= i -> i + 1 < Z.of_nat c ->
  directions !! Z.to_nat i = Some [] ->
  exists e, column_step directions sc l V i = Err e.
Proof using Hl.
  intros Hsh Hi Hic Hm. unfold column_step.
  rewrite (getitem_ok directions i []) by assumption. simpl.
  change (Z.of_nat 0 - 1) with (-1). change (-1 + 1) with 0.
  destruct (Z.leb_spec l (-1)); [lia|].
  destruct (assign_col_ok V (Z.to_nat (l + 1)) c 1 0 (i + 1) [])
    as (V1 & -> & HshV1 & _); [assumption|lia|lia|lia|simpl; lia|].
  simpl. rewrite (range_snoc 0 l) by lia. rewrite foldM_app.
  destruct (foldM_inv (recurrence_step [] (-1) i) (fun _ W => shape W (Z.to_nat (l + 1)) c)
              (range 0 l) V1) as (W & -> & HshW); [assumption| |].
  { intros n j W Hj HshW. apply range_lookup in Hj as [-> Hlt].
    unfold recurrence_step.
    rewrite (mget_ok W (Z.to_nat (l + 1)) c) by (assumption || lia). simpl.
    destruct (mset_ok W (Z.to_nat (l + 1)) c (0 + Z.of_nat n) (i + 1)
                (Z.lxor (at_ W (0 + Z.of_nat n - -1) (i + 1))
                   (Z.shiftr (at_ W (0 + Z.of_nat n - -1) (i + 1)) (-1))))
      as (W' & -> & HshW' & _); [assumption|lia|lia|].
    simpl. eauto. }
  simpl. unfold recurrence_step, mget.
  rewrite (getitem_out W) by (destruct HshW; lia). simpl. eauto.
Qed.

(** If [generate_V] returns, no table row that it read was empty. *)
Lemma generate_V_rows (n_dims : Z) (V : matrix) :
  l <= sc -> 1 <= n_dims <= Z.of_nat (length directions) + 1 ->
  Z.of_nat c = n_dims ->
  generate_V directions n_dims sc l = Ok V ->
  forall i m, 0 <= i < n_dims - 1 -> directions !! Z.to_nat i = Some m -> m <> [].
Proof using Hl.
  intros Hsc Hn Hc. rewrite generate_V_unfold.
  destruct (column0_ok n_dims) as (V1 & -> & HshV1 & Hcol0 & Hzero); [lia..|].
  simpl. intros HV.
  assert (forall k : nat, Z.of_nat k <= n_dims - 1 ->
            forall i m, 0 <= i < Z.of_nat k -> directions !! Z.to_nat i = Some m ->
              m <> []) as Hall.
  { induction k as [|k IH]; intros Hk i m Hi Hm; [lia|].
    destruct (Z.eq_dec i (Z.of_nat k)) as [->|Hne]; [|apply (IH ltac:(lia) i); [lia|assumption]].
    intros ->.
    replace (range 0 (n_dims - 1))
      with ((range 0 (Z.of_nat k) ++ [Z.of_nat k]) ++ range (Z.of_nat k + 1) (n_dims - 1))
      in HV; cycle 1.
    { rewrite <- range_snoc by lia. symmetry. apply range_app. lia. }
    apply foldM_app_ok in HV as (W' & HW' & _).
    apply foldM_app_ok in HW' as (W & HW & Hstep).
    destruct (columns_ok V1 k) as (W0 & HW0 & HshW0 & _ & _ & HzeroW0);
      [assumption|lia|assumption|intros i' m' Hi'; apply IH; lia|lia|].
    rewrite HW0 in HW. injection HW as <-.
    destruct (column_step_empty W0 (Z.of_nat k)) as (e & He);
      [assumption|lia|lia|assumption|].
    simpl in Hstep. rewrite He in Hstep. discriminate. }
  intros i m Hi Hm. apply (Hall (Z.to_nat (n_dims - 1)) ltac:(lia) i); [lia|assumption].
Qed.

End GenerateV.



(** ** Construction *)

Lemma generate_V_dims (directions : list (list Z)) (n_dims sc l : Z) (V : matrix) :
  0 <= l -> generate_V directions n_dims sc l = Ok V -> 1 <= n_dims.
Proof.
  intros Hl. unfold generate_V, zeros.
  destruct (Z.ltb_spec (l + 1) 0); [lia|]. simpl.
  destruct (Z.ltb_spec n_dims 0); [discriminate|]. simpl.
  destruct (Z.eq_dec n_dims 0) as [->|]; [|lia].
  destruct (mapM _ _) as [col0|e]; simpl; [|discriminate].
  unfold assign_col. destruct (Z.to_nat (l + 1)) as [|r] eqn:E; [lia|].
  simpl. discriminate.
Qed.

(** What [__init__] has checked and stored when it returns. *)
Lemma init_inv (directions : list (list Z)) (n d sc : Z) (g : SobolSample) :
  __init__ directions n d sc = Ok g ->
  1 <= n /\ 1 <= d <= Z.of_nat (length directions) + 1 /\ Z.log2_up n <= sc /\
  generate_V directions d sc (Z.log2_up n) = Ok (V g) /\
  g = {| n_samples := n; n_dimensions := d; scale := sc; L := Z.log2_up n;
         current := 0; Y := replicate (Z.to_nat d) 0; V := V g |}.
Proof.
  unfold __init__, ceil_log2. rewrite !Z.gtb_ltb.
  destruct (Z.ltb_spec (Z.of_nat (length directions) + 1) d); [discriminate|].
  destruct (Z.leb_spec n 0); [discriminate|]. simpl. rewrite Z.gtb_ltb.
  destruct (Z.ltb_spec sc (Z.log2_up n)); [discriminate|].
  destruct (generate_V directions d sc (Z.log2_up n)) as [v|e] eqn:EV;
    simpl; [|discriminate].
  intros [= <-]. simpl.
  pose proof (generate_V_dims _ _ _ _ _ (Z.log2_up_nonneg n) EV).
  repeat split; (lia || reflexivity).
Qed.

Lemma pow2_log2_up (n : Z) : 1 <= n -> n <= 2 ^ Z.log2_up n.
Proof.
  intros H. destruct (Z.eq_dec n 1) as [->|]; [reflexivity|].
  apply Z.log2_up_spec. lia.
Qed.




(** ** Running the methods *)

Lemma lsz_loop_det (f1 f2 : nat) (v idx k1 k2 : Z) :
  lsz_loop f1 v idx = Some k1 -> lsz_loop f2 v idx = Some k2 -> k1 = k2.
Proof.
  intros H1 H2.
  apply (lsz_loop_mono f1 (max f1 f2)) in H1; [|lia].
  apply (lsz_loop_mono f2 (max f1 f2)) in H2; [|lia].
  congruence.
Qed.

(** With fuel for [f] bits the method returns [lsz v] on [v < 2^f]. *)
Lemma lsz_run (f fuel : nat) (v : Z) :
  0 <= v < 2 ^ Z.of_nat f -> (S f <= fuel)%nat ->
  index_of_least_significant_zero_bit fuel v = Some (lsz v).
Proof.
  intros Hv Hfuel. unfold index_of_least_significant_zero_bit, lsz.
  destruct (lsz_loop_stops f v 1) as [k Hk]; [lia|lia|].
  apply (lsz_loop_mono _ fuel) in Hk; [|assumption].
  destruct (lsz_fuel v (Z.to_nat (Z.log2 v) + 2) 1) as [k' Hk']; [lia|lia|].
  unfold index_of_least_significant_zero_bit. rewrite Hk, Hk'. simpl.
  f_equal. eapply lsz_loop_det; eassumption.
Qed.

Lemma lsz_range (f : nat) (v : Z) :
  0 <= v < 2 ^ Z.of_nat f - 1 -> 1 <= lsz v <= Z.of_nat f.
Proof.
  intros Hv.
  pose proof (lsz_run f (S f) v ltac:(lia) ltac:(lia)) as H.
  unfold index_of_least_significant_zero_bit in H.
  apply (lsz_loop_bound _ f) in H; lia.
Qed.

(** The monad of the methods, step by step. *)
Lemma bind_run {A B : Type} (m : M A) (f : A -> M B) (self : SobolSample) :
  (m ≫= f) self =
    match m self with
    | Ret a self' => f a self'
    | Raise e self' => Raise e self'
    | Diverge => Diverge
    end.
Proof. reflexivity. Qed.

Ltac step_M :=
  repeat (rewrite bind_run;
          unfold get, lift, loop_result, set_Y, set_current, raise, mret, M_ret; simpl).

(** Invariant rule for [for_]: [I n acc self] holds before the iteration on
    the [n]-th element. *)
Lemma for_inv {Acc B : Type} (body : Acc -> B -> M Acc)
    (I : nat -> Acc -> SobolSample -> Prop) (l : list B) (acc0 : Acc) (self0 : SobolSample) :
  I 0%nat acc0 self0 ->
  (forall n x acc self, l !! n = Some x -> I n acc self ->
     exists acc' self', body acc x self = Ret acc' self' /\ I (S n) acc' self') ->
  exists acc' self', for_ body acc0 l self0 = Ret acc' self' /\ I (length l) acc' self'.
Proof.
  revert I acc0 self0. induction l as [|x l IH]; intros I acc0 self0 H0 Hstep; simpl.
  - exists acc0, self0. split; [reflexivity|assumption].
  - destruct (Hstep 0%nat x acc0 self0 eq_refl H0) as (acc1 & self1 & Hb & H1).
    rewrite bind_run, Hb.
    apply (IH (fun n => I (S n))); [assumption|].
    intros n y acc self Hy. apply (Hstep (S n)). assumption.
Qed.

(** [generate_sample] XORs the row [V[idx]] into [Y], returns the new [Y]
    divided by [2^scale] and moves the cursor. *)
Lemma generate_sample_ok (fuel : nat) (g : SobolSample) (idx : Z) (row : list Z) :
  0 <= n_dimensions g ->
  index_of_least_significant_zero_bit fuel (current g - 1) = Some idx -> 0 <= idx ->
  V g !! Z.to_nat idx = Some row ->
  length row = Z.to_nat (n_dimensions g) -> length (Y g) = Z.to_nat (n_dimensions g) ->
  generate_sample fuel g =
    Ret (coordinate (scale g) <$> zip_with Z.lxor (Y g) row)
        (with_current (current g + 1) (with_Y (zip_with Z.lxor (Y g) row) g)).
Proof.
  intros Hd Hidx Hidx0 Hrow Hlrow HlY. unfold generate_sample.
  rewrite bind_run. unfold get at 1. rewrite bind_run.
  set (d := Z.to_nat (n_dimensions g)) in *.
  destruct (for_inv (sample_step fuel)
    (fun n sample self => exists Yn, self = with_Y Yn g /\
       length Yn = d /\ length sample = d /\
       (forall i y r, (i < n)%nat -> Y g !! i = Some y -> row !! i = Some r ->
          Yn !! i = Some (Z.lxor y r) /\
          sample !! i = Some (coordinate (scale g) (Z.lxor y r))) /\
       (forall i, (n <= i)%nat -> Yn !! i = Y g !! i))
    (range 0 (n_dimensions g)) (replicate d 0%Q) g)
    as (sample & self & -> & Yn & -> & HlYn & Hlsample & Hdone & _).
  - exists (Y g). split; [destruct g; reflexivity|]. split; [assumption|].
    split; [apply length_replicate|]. split; [intros; lia|reflexivity].
  - intros n i sample self Hi (Yn & -> & HlYn & Hlsample & Hdone & Hrest).
    apply range_lookup in Hi as [-> Hlt]. rewrite Z.add_0_l in *.
    destruct (lookup_lt_is_Some_2 (Y g) n) as [y Hy]; [lia|].
    destruct (lookup_lt_is_Some_2 row n) as [r Hr]; [lia|].
    unfold sample_step. step_M.
    rewrite (getitem_ok Yn (Z.of_nat n) y)
      by (lia || (rewrite Nat2Z.id, Hrest by lia; assumption)).
    step_M. rewrite Hidx. step_M.
    unfold mget. rewrite (getitem_ok (V g) idx row) by assumption. simpl.
    rewrite (getitem_ok row (Z.of_nat n) r) by (lia || (rewrite Nat2Z.id; assumption)).
    step_M. rewrite setitem_ok by lia. step_M.
    rewrite (getitem_ok _ (Z.of_nat n) (Z.lxor y r))
      by (lia || (rewrite Nat2Z.id; apply list_lookup_insert_eq; lia)).
    step_M. rewrite setitem_ok by lia. rewrite Nat2Z.id.
    eexists _, _. split; [reflexivity|].
    exists (<[n := Z.lxor y r]> Yn). split; [reflexivity|].
    rewrite !length_insert. split; [assumption|]. split; [assumption|]. split.
    + intros i y' r' Hi Hy' Hr'. destruct (Nat.eq_dec i n) as [->|Hne].
      * rewrite !list_lookup_insert_eq by lia.
        replace y' with y by congruence. replace r' with r by congruence.
        split; reflexivity.
      * rewrite !list_lookup_insert_ne by lia. apply Hdone; (lia || assumption).
    + intros i Hi. rewrite list_lookup_insert_ne by lia. apply Hrest. lia.
  - step_M. rewrite range_length in *.
    replace (Z.to_nat (n_dimensions g - 0)) with d in * by lia.
    assert (Yn = zip_with Z.lxor (Y g) row) as ->.
    { apply list_eq. intros i. rewrite lookup_zip_with.
      destruct (Y g !! i) as [y|] eqn:Ey; simpl.
      - destruct (row !! i) as [r|] eqn:Er; simpl.
        + apply lookup_lt_Some in Ey as Hlt. apply (Hdone i y r); (lia || assumption).
        + apply lookup_ge_None in Er. apply lookup_lt_Some in Ey. lia.
      - apply lookup_ge_None in Ey. apply lookup_ge_None. lia. }
    f_equal. apply list_eq. intros i. rewrite list_lookup_fmap, lookup_zip_with.
    destruct (Y g !! i) as [y|] eqn:Ey; simpl.
    + destruct (row !! i) as [r|] eqn:Er; simpl.
      * apply lookup_lt_Some in Ey as Hlt. apply (Hdone i y r); (lia || assumption).
      * apply lookup_ge_None in Er. apply lookup_lt_Some in Ey. lia.
    + apply lookup_ge_None in Ey. apply lookup_ge_None. lia.
Qed.

Section Run.

Variables (g : SobolSample) (fuel : nat).
Hypothesis Hwf : wf g.
Hypothesis Hfuel : (Z.to_nat (L g) + 1 <= fuel)%nat.

Local Abbreviation d := (Z.to_nat (n_dimensions g)).
Local Abbreviation n := (Z.to_nat (n_samples g)).

(** The steps [1 .. n_samples - 1] read the rows [1 .. L] of [V]. *)
Lemma step_index (j : nat) :
  (S j < n)%nat ->
  index_of_least_significant_zero_bit fuel (Z.of_nat j) = Some (lsz (Z.of_nat j)) /\
  0 <= lsz (Z.of_nat j) /\
  V g !! Z.to_nat (lsz (Z.of_nat j)) = Some (row_ (V g) (lsz (Z.of_nat j))) /\
  length (row_ (V g) (lsz (Z.of_nat j))) = d.
Proof using Hwf Hfuel.
  intros Hj. destruct Hwf as ((Hn1 & Hn2) & HL & Hd & Hsh).
  assert (0 <= Z.of_nat j < 2 ^ Z.of_nat (Z.to_nat (L g)) - 1) as Hv
    by (rewrite Z2Nat.id by assumption; lia).
  split; [apply (lsz_run (Z.to_nat (L g))); lia|].
  pose proof (lsz_range _ _ Hv) as Hr. split; [lia|].
  unfold row_.
  destruct (lookup_lt_is_Some_2 (V g) (Z.to_nat (lsz (Z.of_nat j)))) as [row Hrow];
    [destruct Hsh; lia|].
  rewrite Hrow. simpl. split; [reflexivity|].
  exact (shape_lookup _ _ _ _ _ Hsh Hrow).
Qed.

Lemma gray_length (j : nat) : (j < n)%nat -> length (gray (V g) d j) = d.
Proof using Hwf Hfuel.
  induction j as [|j IH]; intros Hj; simpl; [apply length_replicate|].
  rewrite length_zip_with, IH by lia.
  destruct (step_index j Hj) as (_ & _ & _ & ->). lia.
Qed.

Lemma lxor_zeros (row : list Z) :
  Z.lxor 0 <$> row = zip_with Z.lxor (replicate (length row) 0) row.
Proof using Type.
  induction row as [|x row IH]; simpl; [reflexivity|]. f_equal. exact IH.
Qed.

(** The bulk producer returns the samples [0 .. n_samples - 1] and leaves
    the generator as it was. *)
Lemma generate_all_samples_ok :
  generate_all_samples fuel g = Ret (sobol_row g <$> seq 0 n) g.
Proof using Hwf Hfuel.
  unfold generate_all_samples. rewrite bind_run. unfold get at 1. rewrite bind_run.
  destruct (for_inv (bulk_step fuel)
    (fun k st self => self = g /\
       st.1 = match k with O => IntAcc 0 | S _ => ArrAcc (gray (V g) d k) end /\
       length st.2 = n /\
       forall j, (j < n)%nat ->
         st.2 !! j = Some (if decide (j <= k)%nat then sobol_row g j else replicate d 0%Q))
    (range 1 (n_samples g)) (IntAcc 0, replicate n (replicate d 0%Q)) g)
    as ([X sample_all] & self & -> & -> & HX & Hlen & Hrows).
  - split; [reflexivity|]. split; [reflexivity|].
    split; [apply length_replicate|]. intros j Hj. simpl.
    rewrite lookup_replicate_2 by assumption.
    destruct (decide (j <= 0)%nat) as [Hj0|]; [|reflexivity].
    replace j with 0%nat by lia. reflexivity.
  - intros k j [X sample_all] self Hj (-> & HX & Hlen & Hrows). simpl in *.
    apply range_lookup in Hj as [-> Hlt].
    assert (S k < n)%nat as Hk by (lia).
    destruct (step_index k Hk) as (Hidx & Hidx0 & Hrow & Hlrow).
    unfold bulk_step. step_M.
    replace (1 + Z.of_nat k - 1) with (Z.of_nat k) by lia.
    rewrite Hidx. step_M.
    rewrite (getitem_ok (V g) _ _ Hidx0 Hrow). step_M.
    assert (ixor X (row_ (V g) (lsz (Z.of_nat k))) = Ok (gray (V g) d (S k))) as ->.
    { subst X. destruct k as [|k]; simpl.
      - rewrite lxor_zeros, Hlrow. reflexivity.
      - rewrite bool_decide_eq_true_2; [reflexivity|].
        rewrite Hlrow. apply (gray_length (S k)). lia. }
    step_M. unfold assign_row.
    rewrite (getitem_ok sample_all (1 + Z.of_nat k) (replicate d 0%Q)); cycle 1.
    { lia. }
    { replace (Z.to_nat (1 + Z.of_nat k)) with (S k) by lia.
      rewrite Hrows by lia. rewrite decide_False by lia. reflexivity. }
    simpl. rewrite bool_decide_eq_true_2; cycle 1.
    { rewrite length_replicate, length_fmap. symmetry. apply (gray_length (S k)). lia. }
    rewrite setitem_ok by lia. step_M.
    replace (Z.to_nat (1 + Z.of_nat k)) with (S k) by lia.
    eexists _, _. split; [reflexivity|]. simpl.
    split; [reflexivity|]. split; [reflexivity|].
    rewrite length_insert. split; [assumption|].
    intros j Hj. destruct (Nat.eq_dec j (S k)) as [->|Hne].
    + rewrite list_lookup_insert_eq by lia. rewrite decide_True by lia. reflexivity.
    + rewrite list_lookup_insert_ne by lia. rewrite Hrows by assumption.
      destruct (decide (j <= k)%nat).
      * rewrite decide_True by lia. reflexivity.
      * rewrite decide_False by lia. reflexivity.
  - step_M. f_equal. apply list_eq. intros j. rewrite list_lookup_fmap.
    rewrite range_length in Hrows.
    destruct (Nat.lt_ge_cases j n) as [Hj|Hj].
    + rewrite Hrows by assumption. rewrite lookup_seq_lt by assumption. simpl.
      rewrite decide_True by lia. reflexivity.
    + rewrite lookup_ge_None_2 by lia. rewrite lookup_seq_ge by assumption. reflexivity.
Qed.

End Run.

Lemma next_exhausted (fuel : nat) (g : SobolSample) :
  current g > n_samples g - 1 -> __next__ fuel g = Raise StopIteration g.
Proof.
  intros H. unfold __next__. step_M. rewrite Z.gtb_ltb.
  destruct (Z.ltb_spec (n_samples g - 1) (current g)); [reflexivity|lia].
Qed.

(** A fresh generator has made no call yet. *)
Lemma state_at_0 (g : SobolSample) :
  current g = 0 -> Y g = replicate (Z.to_nat (n_dimensions g)) 0 -> state_at g 0 = g.
Proof.
  intros Hcur HY. unfold state_at, with_current, with_Y. simpl. rewrite <- HY.
  destruct g; simpl in *. subst. reflexivity.
Qed.

Section Sequential.

Variables (g : SobolSample) (fuel : nat).
Hypothesis Hwf : wf g.
Hypothesis Hfuel : (Z.to_nat (L g) + 1 <= fuel)%nat.

Local Abbreviation d := (Z.to_nat (n_dimensions g)).
Local Abbreviation n := (Z.to_nat (n_samples g)).

(** The call number [c] returns and moves the generator on by one. *)
Lemma next_state_at (c : nat) :
  (c < n)%nat -> __next__ fuel (state_at g c) = Ret (output g c) (state_at g (S c)).
Proof using Hwf Hfuel.
  intros Hc. unfold __next__. step_M. rewrite Z.gtb_ltb.
  destruct (Z.ltb_spec (n_samples g - 1) (Z.of_nat c)); [lia|].
  destruct c as [|c]; simpl; [reflexivity|].
  rewrite bind_run.
  destruct (step_index g fuel Hwf Hfuel c Hc) as (Hidx & Hidx0 & Hrow & Hlrow).
  rewrite (generate_sample_ok fuel _ (lsz (Z.of_nat c)) (row_ (V g) (lsz (Z.of_nat c)))).
  - simpl. unfold state_at, with_current, with_Y. simpl. do 2 f_equal. lia.
  - simpl. destruct Hwf as (_ & _ & ? & _). lia.
  - change (current (state_at g (S c))) with (Z.of_nat (S c)).
    replace (Z.of_nat (S c) - 1) with (Z.of_nat c) by lia. assumption.
  - assumption.
  - assumption.
  - assumption.
  - simpl. apply (gray_length g fuel Hwf Hfuel). lia.
Qed.

Lemma read_output (c : nat) : read (state_at g (S c)) (output g c) = sobol_row g c.
Proof using Type.
  destruct c as [|c]; simpl; [|reflexivity]. rewrite fmap_replicate. reflexivity.
Qed.

(** Copying each sample when it is returned gives the samples in order. *)
Lemma snapshots_ok (k : nat) :
  forall c, (c + k <= n)%nat ->
    snapshots fuel k (state_at g c) = Ret (sobol_row g <$> seq c k) (state_at g (c + k)).
Proof using Hwf Hfuel.
  induction k as [|k IH]; intros c Hc; simpl.
  - rewrite Nat.add_0_r. reflexivity.
  - rewrite bind_run, next_state_at by lia. step_M.
    rewrite IH by lia. rewrite read_output. f_equal. f_equal. lia.
Qed.

(** Keeping the objects: the first one is [self.Y] itself. *)
Lemma collect_ok (k : nat) :
  forall c, (c + k <= n)%nat ->
    collect fuel k (state_at g c) = Ret (output g <$> seq c k) (state_at g (c + k)).
Proof using Hwf Hfuel.
  induction k as [|k IH]; intros c Hc; simpl.
  - rewrite Nat.add_0_r. reflexivity.
  - rewrite bind_run, next_state_at by lia. step_M.
    rewrite IH by lia. f_equal. f_equal. lia.
Qed.

(** Read after the calls, the first collected row is the accumulator of the
    last call, not the zero sample. *)
Lemma collected_ok (k : nat) :
  (S k <= n)%nat ->
  collected fuel (S k) (state_at g 0) =
    Ret ((inject_Z <$> gray (V g) d k) :: (sobol_row g <$> seq 1 k)) (state_at g (S k)).
Proof using Hwf Hfuel.
  intros Hk. unfold collected. rewrite bind_run, collect_ok by lia. step_M.
  f_equal. f_equal. rewrite <- list_fmap_compose.
  apply list_fmap_ext. intros i c Hc. apply lookup_seq in Hc as [-> _]. reflexivity.
Qed.

Lemma state_after_ok (k : nat) :
  forall c, (c <= n)%nat ->
    state_after fuel k (state_at g c) = Some (state_at g (min (c + k) n)).
Proof using Hwf Hfuel.
  induction k as [|k IH]; intros c Hc; simpl.
  - rewrite Nat.add_0_r, Nat.min_l by assumption. reflexivity.
  - destruct (Nat.eq_dec c n) as [->|Hne].
    + rewrite next_exhausted by (simpl; destruct Hwf; lia).
      rewrite IH by lia. do 2 f_equal. lia.
    + rewrite next_state_at by lia. rewrite IH by lia. do 2 f_equal. lia.
Qed.

End Sequential.

(** ** Bounds *)

Lemma lxor_bound (a b k : Z) :
  0 <= a < 2 ^ k -> 0 <= b < 2 ^ k -> 0 <= Z.lxor a b < 2 ^ k.
Proof.
  intros Ha Hb.
  assert (0 <= Z.lxor a b) as Hnn by (apply Z.lxor_nonneg; lia).
  split; [assumption|].
  destruct (Z.eq_dec a 0) as [->|Ha0]; [rewrite Z.lxor_0_l; lia|].
  destruct (Z.eq_dec b 0) as [->|Hb0]; [rewrite Z.lxor_0_r; lia|].
  destruct (Z.eq_dec (Z.lxor a b) 0) as [->|Hx0]; [lia|].
  apply Z.log2_lt_pow2; [lia|].
  pose proof (Z.log2_lxor a b ltac:(lia) ltac:(lia)).
  pose proof (proj1 (Z.log2_lt_pow2 a k ltac:(lia)) ltac:(lia)).
  pose proof (proj1 (Z.log2_lt_pow2 b k ltac:(lia)) ltac:(lia)).
  lia.
Qed.

Lemma shiftr_bound (a s k : Z) : 0 <= s -> 0 <= a < 2 ^ k -> 0 <= Z.shiftr a s < 2 ^ k.
Proof.
  intros Hs Ha. split; [apply Z.shiftr_nonneg; lia|].
  rewrite Z.shiftr_div_pow2 by assumption.
  assert (0 < 2 ^ s) by (apply Z.pow_pos_nonneg; lia).
  apply Z.le_lt_trans with a; [|lia].
  apply Z.div_le_upper_bound; [assumption|]. nia.
Qed.

Lemma bit_mul_bound (n x v k : Z) : 0 <= v < 2 ^ k -> 0 <= bit n x * v < 2 ^ k.
Proof. intros Hv. unfold bit. destruct (Z.testbit x n); simpl; lia. Qed.

Lemma lag_xor_bound (m0 s sc : Z) (col : Z -> Z) (j : Z) :
  0 <= s ->
  (forall r, j - s <= r -> r <= Z.max (j - 1) (j - s) -> 0 <= col r < 2 ^ sc) ->
  0 <= lag_xor m0 s col j < 2 ^ sc.
Proof.
  intros Hs Hcol. unfold lag_xor.
  assert (forall l acc, 0 <= acc < 2 ^ sc -> (forall k, k ∈ l -> 1 <= k < s) ->
            0 <= foldl (fun acc k => Z.lxor acc (bit (s - 1 - k) m0 * col (j - k))) acc l
              < 2 ^ sc) as Hfold.
  { induction l as [|k l IH]; intros acc Hacc Hl; simpl; [assumption|].
    apply IH; [|intros k' Hk'; apply Hl; right; assumption].
    apply lxor_bound; [assumption|]. apply bit_mul_bound. apply Hcol.
    - specialize (Hl k ltac:(left)). lia.
    - specialize (Hl k ltac:(left)). lia. }
  apply Hfold.
  - apply lxor_bound; [apply Hcol; lia|]. apply shiftr_bound; [assumption|].
    apply Hcol; lia.
  - intros k Hk%elem_of_range. assumption.
Qed.

Lemma seed_bound (m : list Z) (sc j mj : Z) :
  1 <= j <= sc -> m !! Z.to_nat j = Some mj -> 0 <= mj < 2 ^ j ->
  0 <= seed m sc j < 2 ^ sc.
Proof.
  intros Hj Hm Hmj. unfold seed. rewrite Hm. simpl.
  rewrite Z.shiftl_mul_pow2 by lia.
  replace (2 ^ sc) with (2 ^ j * 2 ^ (sc - j))
    by (rewrite <- Z.pow_add_r by lia; f_equal; lia).
  assert (0 < 2 ^ (sc - j)) by (apply Z.pow_pos_nonneg; lia). nia.
Qed.

(** A column built from direction numbers stays below [2^scale]. *)
Lemma column_bound (m : list Z) (sc l : Z) (col : Z -> Z) :
  column_law m sc l col -> m <> [] -> 0 <= l <= sc ->
  (forall j mj, (1 <= j)%nat -> m !! j = Some mj -> 0 <= mj < 2 ^ Z.of_nat j) ->
  forall j, 0 <= j <= l -> 0 <= col j < 2 ^ sc.
Proof.
  intros (H0 & Hseed & Hrec) Hne Hl Hm.
  assert (0 < 2 ^ sc) as Hpos by (apply Z.pow_pos_nonneg; lia).
  assert (0 <= Z.of_nat (length m) - 1) as Hs by (destruct m; [congruence|simpl; lia]).
  set (s := Z.of_nat (length m) - 1) in *.
  assert (forall k : nat, forall j, 0 <= j <= l -> j <= Z.of_nat k -> 0 <= col j < 2 ^ sc)
    as Hall.
  { induction k as [|k IH]; intros j Hj Hjk.
    - replace j with 0 by lia. rewrite H0. lia.
    - destruct (Z.eq_dec j 0) as [->|Hj0]; [rewrite H0; lia|].
      destruct (Z_le_gt_dec j s) as [Hjs|Hjs].
      + rewrite Hseed by lia.
        destruct (lookup_lt_is_Some_2 m (Z.to_nat j)) as [mj Hmj]; [lia|].
        apply (seed_bound m sc j mj); [lia|assumption|].
        pose proof (Hm (Z.to_nat j) mj ltac:(lia) Hmj) as Hb.
        rewrite Z2Nat.id in Hb by lia. assumption.
      + rewrite Hrec by lia. destruct (Z.eq_dec s 0) as [Es|Es].
        * rewrite Es. unfold lag_xor. rewrite range_nil by lia. simpl.
          rewrite Z.sub_0_r, Z.shiftr_0_r, Z.lxor_nilpotent. lia.
        * apply lag_xor_bound; [assumption|]. intros r Hr1 Hr2. apply IH; lia. }
  intros j Hj. apply (Hall (Z.to_nat j)); lia.
Qed.

Lemma coordinate_bound (sc y : Z) :
  0 <= sc -> 0 <= y < 2 ^ sc -> (0 <= coordinate sc y < 1)%Q.
Proof.
  intros Hsc Hy. unfold coordinate.
  assert (Qpower 2 sc == inject_Z (2 ^ sc))%Q as Hpow
    by (symmetry; apply (Zpower_Qpower 2 sc Hsc)).
  assert (0 < 2 ^ sc) as Hpos by (apply Z.pow_pos_nonneg; lia).
  assert (0 < Qpower 2 sc)%Q as HposQ
    by (rewrite Hpow; change 0%Q with (inject_Z 0); rewrite <- Zlt_Qlt; assumption).
  split.
  - apply Qle_shift_div_l; [assumption|]. rewrite Qmult_0_l.
    change 0%Q with (inject_Z 0). rewrite <- Zle_Qle. lia.
  - apply Qlt_shift_div_r; [assumption|]. rewrite Qmult_1_l, Hpow.
    rewrite <- Zlt_Qlt. lia.
Qed.

(** ** Generators that [__init__] has built *)

Lemma init_facts (directions : list (list Z)) (n d sc : Z) (g : SobolSample) :
  __init__ directions n d sc = Ok g ->
  wf g /\ current g = 0 /\ Y g = replicate (Z.to_nat (n_dimensions g)) 0 /\
  n_samples g = n /\ n_dimensions g = d /\ scale g = sc /\ L g = Z.log2_up n /\
  0 <= L g <= sc /\
  (forall j, 0 <= j ->
     at_ (V g) j 0 = if decide (1 <= j <= L g) then 2 ^ (sc - j) else 0) /\
  (forall i m, 0 <= i < d - 1 -> directions !! Z.to_nat i = Some m ->
     m <> [] /\ column_law m sc (L g) (fun j => at_ (V g) j (i + 1))).
Proof.
  intros Hinit. apply init_inv in Hinit as (Hn & Hd & Hsc & HV & Hg).
  pose proof (Z.log2_up_nonneg n) as HL.
  pose proof (generate_V_rows directions sc (Z.log2_up n) (Z.to_nat d) HL d (V g)
                Hsc Hd ltac:(lia) HV) as Hrows.
  destruct (generate_V_ok directions sc (Z.log2_up n) (Z.to_nat d) HL d
              Hsc Hd ltac:(lia) Hrows) as (V' & HV' & Hsh & Hcol0 & Hlaw).
  assert (V' = V g) as -> by congruence.
  rewrite Hg. simpl. unfold wf. simpl.
  pose proof (pow2_log2_up n Hn).
  split; [repeat split; (lia || apply Hsh)|].
  repeat (split; [reflexivity || lia|]).
  split; [exact Hcol0|].
  intros i m Hi Hm. split; [eapply Hrows; eassumption|apply Hlaw; assumption].
Qed.

Lemma wf_state_at (g : SobolSample) (c : nat) : wf g -> wf (state_at g c).
Proof. intros H. exact H. Qed.

Lemma row_lookup (V : matrix) (idx : Z) (row : list Z) (i : nat) :
  V !! Z.to_nat idx = Some row -> (i < length row)%nat ->
  row !! i = Some (at_ V idx (Z.of_nat i)).
Proof.
  intros Hrow Hi. unfold at_. rewrite Hrow. simpl. rewrite Nat2Z.id.
  destruct (lookup_lt_is_Some_2 row i Hi) as [x ->]. reflexivity.
Qed.

Lemma at_outside (V : matrix) (r c : nat) (j i : Z) :
  shape V r c -> Z.of_nat r <= j \/ Z.of_nat c <= i -> at_ V j i = 0.
Proof.
  intros Hsh Hout. unfold at_.
  destruct (V !! Z.to_nat j) as [row|] eqn:Hrow; [|reflexivity]. simpl.
  pose proof (shape_lookup _ _ _ _ _ Hsh Hrow) as Hlen.
  apply lookup_lt_Some in Hrow. destruct Hsh as [Hr _].
  rewrite lookup_ge_None_2 by lia. reflexivity.
Qed.

(** The accumulator, entry by entry. *)
Lemma gray_lookup (g : SobolSample) (j i : nat) :
  wf g -> (j < Z.to_nat (n_samples g))%nat -> (i < Z.to_nat (n_dimensions g))%nat ->
  gray (V g) (Z.to_nat (n_dimensions g)) j !! i = Some (gray_at (V g) (Z.of_nat i) j).
Proof.
  intros Hwf. induction j as [|j IH]; intros Hj Hi; simpl.
  - apply lookup_replicate_2. assumption.
  - destruct (step_index g (Z.to_nat (L g) + 1) Hwf ltac:(lia) j Hj)
      as (_ & _ & Hrow & Hlrow).
    rewrite lookup_zip_with, IH by lia. simpl.
    rewrite (row_lookup (V g) _ _ i Hrow) by lia. reflexivity.
Qed.

(** With direction numbers as seeds, every entry of [V] is below [2^scale]. *)
Lemma generate_V_bounded (directions : list (list Z)) (n d sc : Z) (g : SobolSample) :
  __init__ directions n d sc = Ok g -> seeds_ok directions ->
  forall j i, 0 <= j -> 0 <= i -> 0 <= at_ (V g) j i < 2 ^ sc.
Proof.
  intros Hinit Hseeds j i Hj Hi.
  pose proof Hinit as Hinv. apply init_inv in Hinv as (_ & Hd & _).
  apply init_facts in Hinit
    as (Hwf & _ & _ & _ & Hnd & _ & _ & HL & Hcol0 & Hlaw).
  destruct Hwf as (_ & _ & _ & Hsh). rewrite Hnd in Hsh.
  assert (0 < 2 ^ sc) as Hpos by (apply Z.pow_pos_nonneg; lia).
  destruct (Z_le_gt_dec d i); [rewrite (at_outside _ _ _ _ _ Hsh) by lia; lia|].
  destruct (Z_lt_le_dec (L g) j); [rewrite (at_outside _ _ _ _ _ Hsh) by lia; lia|].
  destruct (Z.eq_dec i 0) as [->|Hi0].
  - rewrite Hcol0 by assumption. destruct (decide (1 <= j <= L g)); [|lia].
    split; [apply Z.pow_nonneg; lia|]. apply Z.pow_lt_mono_r; lia.
  - destruct (lookup_lt_is_Some_2 directions (Z.to_nat (i - 1))) as [m Hm]; [lia|].
    destruct (Hlaw (i - 1) m ltac:(lia) Hm) as (Hne & Hcol).
    replace (i - 1 + 1) with i in Hcol by lia.
    apply (column_bound m sc (L g) _ Hcol Hne HL); [|lia].
    unfold seeds_ok in Hseeds. rewrite Forall_lookup in Hseeds.
    exact (Hseeds _ _ Hm).
Qed.

Lemma gray_at_bounded (V : matrix) (sc i : Z) (j : nat) :
  0 <= sc -> (forall r, 0 <= r -> 0 <= at_ V r i < 2 ^ sc) ->
  (forall v, 0 <= v -> 0 <= lsz v) ->
  0 <= gray_at V i j < 2 ^ sc.
Proof.
  intros Hsc Hat Hlsz. induction j as [|j IH]; simpl.
  - split; [lia|]. apply Z.pow_pos_nonneg; lia.
  - apply lxor_bound; [assumption|]. apply Hat. apply Hlsz. lia.
Qed.

Lemma lsz_nonneg (v : Z) : 0 <= v -> 0 <= lsz v.
Proof.
  intros Hv. unfold lsz, index_of_least_significant_zero_bit.
  destruct (lsz_fuel v (Z.to_nat (Z.log2 v) + 2) 1 Hv ltac:(lia)) as [k Hk].
  rewrite Hk. simpl. apply lsz_loop_bits in Hk. lia.
Qed.

(** ** The sequential producer *)



(** C9: a call of [__next__] that raises [StopIteration] leaves the
    generator as it was ([Y], [current], [V] and the configuration), however
    often it is repeated. *)
Theorem exhausted_next_frame (fuel : nat) (g : SobolSample) :
  current g > n_samples g - 1 ->
  __next__ fuel g = Raise StopIteration g /\
  forall k, state_after fuel k g = Some g.
Proof.
  intros H. pose proof (next_exhausted fuel g H) as Hnext.
  split; [assumption|]. induction k as [|k IH]; simpl; [reflexivity|].
  rewrite Hnext. assumption.
Qed.

Lemma exhausted_next_frame_witness :
  __next__ 2 exhausted_example = Raise StopIteration exhausted_example /\
  forall k, state_after 2 k exhausted_example = Some exhausted_example.
Proof.
  apply (exhausted_next_frame 2 exhausted_example). simpl. lia.
Defined.

(** ** The bulk producer *)

(** The generator that a caller holds after a call: unchanged? *)
Lemma for_frame {Acc B : Type} (body : Acc -> B -> M Acc) (l : list B) :
  (forall acc x self, same_generator self (body acc x self)) ->
  forall acc self, same_generator self (for_ body acc l self).
Proof.
  intros Hbody. induction l as [|x l IH]; intros acc self; simpl; [reflexivity|].
  rewrite bind_run. specialize (Hbody acc x self).
  destruct (body acc x self) as [acc1 self1|e self1|]; simpl in *; [|assumption..].
  subst self1. apply IH.
Qed.

Lemma bulk_step_frame (fuel : nat) (st : accumulator * list (list Q)) (j : Z)
    (self : SobolSample) :
  same_generator self (bulk_step fuel st j self).
Proof.
  unfold bulk_step. step_M.
  destruct (index_of_least_significant_zero_bit fuel (j - 1)); [|exact I].
  step_M. destruct (getitem (V self) z); [|reflexivity].
  step_M. destruct (ixor st.1 a); [|reflexivity].
  step_M. destruct (assign_row _ _ _); reflexivity.
Qed.



(** ** Termination of the bit search *)

Lemma range_cons (a b : Z) : a < b -> range a b = a :: range (a + 1) b.
Proof.
  intros H. unfold range. rewrite seqZ_cons by lia. f_equal. f_equal; lia.
Qed.

Lemma lsz_stops (v : Z) :
  v <> -1 -> exists fuel k, index_of_least_significant_zero_bit fuel v = Some k.
Proof.
  intros Hv. exists (S (Z.to_nat (Z.abs v))).
  apply lsz_loop_stops; [|assumption].
  rewrite Z2Nat.id by lia.
  pose proof (Z.pow_gt_lin_r 2 (Z.abs v) ltac:(lia) ltac:(lia)). lia.
Qed.

(** On a fresh generator the first iteration of [generate_sample] asks for
    the lowest zero bit of [-1]. *)
Lemma generate_sample_fresh (fuel : nat) (g : SobolSample) :
  current g = 0 -> 1 <= n_dimensions g ->
  Y g = replicate (Z.to_nat (n_dimensions g)) 0 ->
  generate_sample fuel g = Diverge.
Proof.
  intros Hcur Hd HY. unfold generate_sample. rewrite bind_run. unfold get at 1.
  rewrite bind_run, (range_cons 0) by lia. simpl for_.
  rewrite bind_run. unfold sample_step. rewrite bind_run. unfold get at 1.
  rewrite bind_run.
  rewrite (getitem_ok (Y g) 0 0); [|lia|rewrite HY; apply lookup_replicate_2; lia].
  unfold lift at 1. rewrite bind_run, Hcur.
  unfold index_of_least_significant_zero_bit.
  change (0 - 1) with (-1). rewrite lsz_loop_minus_one. reflexivity.
Qed.




(** ** The two producers side by side *)

(** Read at the time each sample is returned, the sequential producer gives
    the rows of the bulk producer. *)
Lemma snapshots_match_bulk (directions : list (list Z)) (n d sc : Z) (g : SobolSample)
    (fuel : nat) :
  __init__ directions n d sc = Ok g ->
  (Z.to_nat (Z.log2_up n) + 1 <= fuel)%nat ->
  exists m g', snapshots fuel (Z.to_nat n) g = Ret m g' /\
               generate_all_samples fuel g = Ret m g.
Proof.
  intros Hinit Hfuel.
  apply init_facts in Hinit as (Hwf & Hcur & HY & Hn & _ & _ & HL & _).
  rewrite <- HL in Hfuel.
  pose proof (snapshots_ok g fuel Hwf Hfuel (Z.to_nat n) 0%nat ltac:(lia)) as Hs.
  rewrite (state_at_0 g Hcur HY) in Hs.
  eexists _, _. split; [exact Hs|].
  rewrite (generate_all_samples_ok g fuel Hwf Hfuel), Hn. reflexivity.
Qed.

(** C1 at [n_samples = 2], [n_dimensions = 1], [scale = 31]: the first object
    handed out is [self.Y], which the second call updates in place, so the
    collected matrix starts with the row [2^30] where the bulk matrix has
    the row [0]. *)
Theorem collected_first_row_is_Y :
  exists g g', __init__ joe_kuo 2 1 31 = Ok g /\
    collect 2 2 g = Ret [TheY; Fresh [1073741824 # 2147483648]] g' /\
    Y g' = [1073741824] /\
    collected 2 2 g = Ret [[1073741824 # 1]; [1073741824 # 2147483648]] g' /\
    generate_all_samples 2 g = Ret [[0 # 1]; [1073741824 # 2147483648]] g.
Proof.
  eexists _, _. split; [vm_compute; reflexivity|].
  split; [vm_compute; reflexivity|]. split; [reflexivity|].
  split; vm_compute; reflexivity.
Qed.

Lemma sobol_row_0 (g : SobolSample) (j : nat) :
  wf g -> (j < Z.to_nat (n_samples g))%nat ->
  default 0%Q (sobol_row g j !! 0%nat) =
    match j with
    | O => 0%Q
    | S _ => coordinate (scale g) (gray_at (V g) 0 j)
    end.
Proof.
  intros Hwf Hj. assert (0 < Z.to_nat (n_dimensions g))%nat as Hd
    by (destruct Hwf as (_ & _ & ? & _); lia).
  destruct j as [|j]; unfold sobol_row.
  - rewrite lookup_replicate_2 by assumption. reflexivity.
  - rewrite list_lookup_fmap, (gray_lookup g (S j) 0 Hwf Hj Hd). reflexivity.
Qed.

(** C2, as the code has it: with [scale = 31] and [n_samples >= 4] the first
    four samples of dimension 0, from the bulk producer as from the
    sequential one (read when returned), are 0, 1/2, 3/4, 1/4 in that order:
    the order of the Gray code. *)
Theorem first_four_samples (directions : list (list Z)) (n d : Z) (g : SobolSample)
    (fuel : nat) :
  4 <= n -> __init__ directions n d 31 = Ok g ->
  (Z.to_nat (Z.log2_up n) + 1 <= fuel)%nat ->
  exists m rows g',
    generate_all_samples fuel g = Ret m g /\
    snapshots fuel 4 g = Ret rows g' /\
    Forall2 Qeq (column 0 (take 4 m)) [0; 1 # 2; 3 # 4; 1 # 4]%Q /\
    Forall2 Qeq (column 0 rows) [0; 1 # 2; 3 # 4; 1 # 4]%Q.
Proof.
  intros Hn4 Hinit Hfuel.
  apply init_facts in Hinit as (Hwf & Hcur & HY & Hn & _ & Hsc & HL & _ & Hcol0 & _).
  rewrite <- HL in Hfuel.
  pose proof (snapshots_ok g fuel Hwf Hfuel 4 0%nat ltac:(lia)) as Hs.
  rewrite (state_at_0 g Hcur HY) in Hs.
  eexists _, _, _. split; [apply (generate_all_samples_ok g fuel Hwf Hfuel)|].
  split; [exact Hs|].
  rewrite <- fmap_take, take_seq, Nat.min_l by lia.
  assert (2 <= L g) as HL2.
  { rewrite HL. change 2 with (Z.log2_up 4). apply Z.log2_up_le_mono. assumption. }
  assert (Forall2 Qeq (column 0 (sobol_row g <$> seq 0 4)) [0; 1 # 2; 3 # 4; 1 # 4]%Q)
    as Hrows; [|split; exact Hrows].
  unfold column. cbn [seq fmap list_fmap].
  rewrite !(sobol_row_0 g) by (assumption || lia). rewrite Hsc.
  change (gray_at (V g) 0 1) with (Z.lxor 0 (at_ (V g) 1 0)).
  change (gray_at (V g) 0 2)
    with (Z.lxor (Z.lxor 0 (at_ (V g) 1 0)) (at_ (V g) 2 0)).
  change (gray_at (V g) 0 3)
    with (Z.lxor (Z.lxor (Z.lxor 0 (at_ (V g) 1 0)) (at_ (V g) 2 0)) (at_ (V g) 1 0)).
  rewrite !Hcol0 by lia. rewrite !decide_True by lia.
  repeat constructor.
Qed.

Lemma first_four_samples_witness :
  exists g m rows g', __init__ joe_kuo 8 3 31 = Ok g /\
    generate_all_samples 4 g = Ret m g /\
    snapshots 4 4 g = Ret rows g' /\
    Forall2 Qeq (column 0 (take 4 m)) [0; 1 # 2; 3 # 4; 1 # 4]%Q /\
    Forall2 Qeq (column 0 rows) [0; 1 # 2; 3 # 4; 1 # 4]%Q.
Proof.
  eexists. 
  destruct (first_four_samples joe_kuo 8 3 _ 4%nat ltac:(lia)
              ltac:(vm_compute; reflexivity) ltac:(vm_compute; lia))
    as (m & rows & g' & H).
  exists m, rows, g'. split; [reflexivity|exact H].
Defined.

(** The order 0, 1/2, 1/4, 3/4 of the claim is not the one produced: the
    third sample of dimension 0 is 3/4. *)
Lemma first_four_samples_not_natural_order :
  exists g m, __init__ joe_kuo 4 1 31 = Ok g /\
    generate_all_samples 3 g = Ret m g /\
    ~ Forall2 Qeq (column 0 (take 4 m)) [0; 1 # 2; 1 # 4; 3 # 4]%Q.
Proof.
  eexists _, _. split; [vm_compute; reflexivity|]. split; [vm_compute; reflexivity|].
  intros H. inversion H as [|? ? ? ? _ H1]; subst.
  inversion H1 as [|? ? ? ? _ H2]; subst.
  inversion H2 as [|? ? ? ? Hq _]; subst.
  vm_compute in Hq. discriminate.
Qed.

(** ** Range of the samples *)

Section Range.

Variable directions : list (list Z).
Variables (n d sc : Z) (g : SobolSample).
Hypothesis Hinit : __init__ directions n d sc = Ok g.
Hypothesis Hseeds : seeds_ok directions.

Lemma gray_bounded (j : nat) :
  (j < Z.to_nat n)%nat ->
  Forall (fun y => 0 <= y < 2 ^ sc) (gray (V g) (Z.to_nat (n_dimensions g)) j).
Proof using Hinit Hseeds.
  intros Hj. pose proof (generate_V_bounded directions n d sc g Hinit Hseeds) as HV.
  apply init_facts in Hinit as (Hwf & _ & _ & Hn & _ & _ & HL & Hsc & _).
  apply Forall_lookup. intros i y Hy.
  assert (i < Z.to_nat (n_dimensions g))%nat as Hi.
  { apply lookup_lt_Some in Hy.
    rewrite (gray_length g (Z.to_nat (L g) + 1) Hwf ltac:(lia)) in Hy; lia. }
  rewrite (gray_lookup g j i Hwf ltac:(lia) Hi) in Hy. injection Hy as <-.
  apply gray_at_bounded; [lia| |apply lsz_nonneg].
  intros r Hr. apply HV; lia.
Qed.

Lemma sobol_row_bounded (j : nat) :
  (j < Z.to_nat n)%nat -> Forall (fun q => (0 <= q < 1)%Q) (sobol_row g j).
Proof using Hinit Hseeds.
  intros Hj. pose proof (gray_bounded j Hj) as Hg.
  apply init_facts in Hinit as (_ & _ & _ & _ & _ & Hscale & _ & Hsc & _).
  destruct j as [|j]; unfold sobol_row.
  - apply Forall_replicate. split; [apply Qle_refl|reflexivity].
  - apply Forall_fmap. eapply Forall_impl; [exact Hg|].
    intros y Hy. simpl. rewrite Hscale. apply coordinate_bound; [lia|assumption].
Qed.

End Range.


Lemma joe_kuo_seeds_ok : seeds_ok joe_kuo.
Proof.
  unfold seeds_ok, joe_kuo.
  repeat match goal with
         | |- Forall _ (_ :: _) => constructor
         | |- Forall _ [] => constructor
         end;
    intros j mj Hj Hm;
    do 5 (destruct j as [|j];
          [simpl in Hm; try lia; try discriminate; injection Hm as <-; simpl; lia|]);
    simpl in Hm; discriminate.
Defined.


(** * Further properties of the class *)

(** ** What the constructor establishes and the calls keep *)





(** ** Arguments and tables that the constructor refuses *)



Section EmptyRow.

Variable directions : list (list Z).
Variables (sc l : Z) (c : nat).
Hypothesis Hl : 0 <= l.

(** The recurrence over an empty table row reads row [L+1] of [V]. *)
Lemma column_step_empty_row (V : matrix) (i : Z) :
  shape V (Z.to_nat (l + 1)) c -> 0 <= i -> i + 1 < Z.of_nat c ->
  directions !! Z.to_nat i = Some [] ->
  column_step directions sc l V i = Err IndexError.
Proof using Hl.
  intros Hsh Hi Hic Hm. unfold column_step.
  rewrite (getitem_ok directions i []) by assumption. simpl.
  change (Z.of_nat 0 - 1) with (-1). change (-1 + 1) with 0.
  destruct (Z.leb_spec l (-1)); [lia|].
  destruct (assign_col_ok V (Z.to_nat (l + 1)) c 1 0 (i + 1) [])
    as (V1 & -> & HshV1 & _); [assumption|lia|lia|lia|simpl; lia|].
  simpl. rewrite (range_snoc 0 l) by lia. rewrite foldM_app.
  destruct (foldM_inv (recurrence_step [] (-1) i) (fun _ W => shape W (Z.to_nat (l + 1)) c)
              (range 0 l) V1) as (W & -> & HshW); [assumption| |].
  { intros n j W Hj HshW. apply range_lookup in Hj as [-> Hlt].
    unfold recurrence_step.
    rewrite (mget_ok W (Z.to_nat (l + 1)) c) by (assumption || lia). simpl.
    destruct (mset_ok W (Z.to_nat (l + 1)) c (0 + Z.of_nat n) (i + 1)
                (Z.lxor (at_ W (0 + Z.of_nat n - -1) (i + 1))
                   (Z.shiftr (at_ W (0 + Z.of_nat n - -1) (i + 1)) (-1))))
      as (W' & -> & HshW' & _); [assumption|lia|lia|].
    simpl. eauto. }
  simpl. unfold recurrence_step, mget.
  rewrite (getitem_out W) by (destruct HshW; lia). reflexivity.
Qed.

(** The loop over the dimensions stops with [IndexError] at the first empty
    row. *)
Lemma columns_empty_row (V1 : matrix) (k : nat) :
  shape V1 (Z.to_nat (l + 1)) c -> Z.of_nat k + 1 <= Z.of_nat c ->
  (forall i j, 0 <= i -> 0 <= j -> at_ V1 j (i + 1) = 0) ->
  (k <= length directions)%nat ->
  (forall i m, 0 <= i < Z.of_nat k -> directions !! Z.to_nat i = Some m -> m <> []) \/
  foldM (column_step directions sc l) V1 (range 0 (Z.of_nat k)) = Err IndexError.
Proof using Hl.
  intros HshV1 Hk Hzero Hlen. induction k as [|k IH]; [left; intros; lia|].
  destruct (lookup_lt_is_Some_2 directions k) as [m Hm]; [lia|].
  replace (Z.of_nat (S k)) with (Z.of_nat k + 1) by lia.
  rewrite (range_snoc 0 (Z.of_nat k)), foldM_app by lia.
  destruct (IH ltac:(lia) ltac:(lia)) as [Hrows|Herr].
  - destruct m as [|m0 m'].
    + right.
      destruct (columns_ok directions sc l c Hl V1 k)
        as (W & -> & HshW & _); [assumption|lia|assumption|assumption|lia|].
      simpl. rewrite (column_step_empty_row W (Z.of_nat k));
        [reflexivity|assumption|lia|lia|rewrite Nat2Z.id; assumption].
    + left. intros i m Hi Hmi.
      destruct (Z.eq_dec i (Z.of_nat k)) as [->|Hne].
      * rewrite Nat2Z.id in Hmi. congruence.
      * apply (Hrows i); [lia|assumption].
  - right. rewrite Herr. reflexivity.
Qed.

End EmptyRow.



(** ** The index of the lowest zero bit *)

Lemma lsz_loop_ones (f : nat) :
  forall fuel idx, (f + 1 <= fuel)%nat ->
    lsz_loop fuel (2 ^ Z.of_nat f - 1) idx = Some (idx + Z.of_nat f).
Proof.
  induction f as [|f IH]; intros fuel idx Hfuel;
    (destruct fuel as [|fuel]; [lia|]).
  - simpl. f_equal. lia.
  - cbn [lsz_loop]. rewrite land_1_testbit, negb_involutive.
    assert (Z.testbit (2 ^ Z.of_nat (S f) - 1) 0 = true) as Hodd.
    { rewrite Z.sub_1_r, <- Z.ones_equiv. apply Z.ones_spec_low. lia. }
    rewrite Hodd. pose proof (odd_shiftr _ Hodd) as Hhalf.
    rewrite Nat2Z.inj_succ, Z.pow_succ_r in Hhalf by lia.
    replace (Z.shiftr (2 ^ Z.of_nat (S f) - 1) 1) with (2 ^ Z.of_nat f - 1)
      by (rewrite Nat2Z.inj_succ, Z.pow_succ_r by lia; lia).
    rewrite IH by lia. f_equal. lia.
Qed.

(** X5: on [0 <= v < 2^f] the method returns an index between 1 and [f+1],
    after at most [f+1] tests of the loop condition; the index is [f+1]
    exactly when [v = 2^f - 1], the number whose [f] low bits are all ones. *)
Theorem lsz_index_range (f fuel : nat) (v : Z) :
  0 <= v < 2 ^ Z.of_nat f -> (f + 1 <= fuel)%nat ->
  exists k, index_of_least_significant_zero_bit fuel v = Some k /\
    1 <= k <= Z.of_nat f + 1 /\
    (k = Z.of_nat f + 1 <-> v = 2 ^ Z.of_nat f - 1).
Proof.
  intros Hv Hfuel. unfold index_of_least_significant_zero_bit.
  destruct (Z.eq_dec v (2 ^ Z.of_nat f - 1)) as [->|Hne].
  - rewrite lsz_loop_ones by assumption. eexists. split; [reflexivity|]. lia.
  - destruct (lsz_loop_stops f v 1) as [k Hk]; [lia|lia|].
    apply (lsz_loop_mono _ fuel) in Hk; [|lia].
    exists k. split; [assumption|].
    apply (lsz_loop_bound _ f) in Hk; lia.
Qed.

Lemma lsz_index_range_witness :
  exists k, index_of_least_significant_zero_bit 4 7 = Some k /\
    1 <= k <= Z.of_nat 3 + 1 /\
    (k = Z.of_nat 3 + 1 <-> 7 = 2 ^ Z.of_nat 3 - 1).
Proof. apply (lsz_index_range 3 4 7); [simpl; lia|lia]. Defined.

(** ** The samples of the two producers *)



(** X7: the first sample is the zero vector: the first call of [__next__]
    needs no bit search, moves the cursor to 1 and hands out [Y], all zeros
    at that time, and row 0 of the bulk matrix is zero. *)
Theorem first_sample_is_zero (directions : list (list Z)) (n d sc : Z)
    (g : SobolSample) :
  __init__ directions n d sc = Ok g ->
  (forall fuel, __next__ fuel g = Ret TheY (with_current 1 g)) /\
  read (with_current 1 g) TheY = replicate (Z.to_nat d) 0%Q /\
  (forall fuel m g', generate_all_samples fuel g = Ret m g' ->
     m !! 0%nat = Some (replicate (Z.to_nat d) 0%Q)).
Proof.
  intros Hinit.
  apply init_facts in Hinit as (Hwf & Hcur & HY & Hn & Hd & _).
  pose proof Hwf as ((Hn1 & _) & _ & Hd1 & _).
  split; [|split].
  - intros fuel. unfold __next__. step_M. rewrite Z.gtb_ltb, Hcur.
    destruct (Z.ltb_spec (n_samples g - 1) 0); [lia|]. reflexivity.
  - simpl. rewrite HY, fmap_replicate, Hd. reflexivity.
  - intros fuel m g'. unfold generate_all_samples. step_M.
    set (z := replicate (Z.to_nat (n_samples g))
                (replicate (Z.to_nat (n_dimensions g)) 0%Q)).
    assert (forall l st self st' self',
              st.2 !! 0%nat = Some (replicate (Z.to_nat d) 0%Q) ->
              Forall (fun j => 1 <= j) l ->
              for_ (bulk_step fuel) st l self = Ret st' self' ->
              st'.2 !! 0%nat = Some (replicate (Z.to_nat d) 0%Q)) as Hloop.
    { induction l as [|j l IH]; intros st self st' self' H0 Hl; simpl.
      - intros [= <- _]. assumption.
      - rewrite bind_run. unfold bulk_step at 1. step_M.
        destruct (index_of_least_significant_zero_bit fuel (j - 1)); [|discriminate].
        step_M. destruct (getitem (V self) z0); [|discriminate].
        step_M. destruct (ixor st.1 a); [|discriminate].
        step_M. unfold assign_row.
        destruct (getitem st.2 j) as [row|]; [|discriminate]. simpl.
        destruct (bool_decide _); [|discriminate].
        unfold setitem. destruct (py_index (length st.2) j) as [p|] eqn:Ep;
          [|discriminate].
        step_M. apply IH; [|inversion Hl; assumption].
        simpl. rewrite list_lookup_insert_ne; [assumption|].
        inversion Hl as [|? ? Hj _]; subst. unfold py_index in Ep.
        destruct (Z.ltb_spec j 0); [lia|]. rewrite andb_false_r in Ep.
        destruct ((0 <=? j) && (j <? Z.of_nat (length st.2))); [|discriminate].
        injection Ep as <-. lia. }
    destruct (for_ _ _ _ g) as [st self|e self|] eqn:Hfor; [|discriminate..].
    step_M. intros [= <- _]. eapply Hloop; [| |exact Hfor].
    + simpl. subst z. rewrite lookup_replicate_2 by lia. rewrite Hd. reflexivity.
    + apply Forall_forall. intros j Hj%elem_of_range. lia.
Qed.

Lemma first_sample_is_zero_witness :
  exists g, __init__ joe_kuo 4 2 31 = Ok g /\
  (forall fuel, __next__ fuel g = Ret TheY (with_current 1 g)) /\
  read (with_current 1 g) TheY = replicate (Z.to_nat 2) 0%Q /\
  (forall fuel m g', generate_all_samples fuel g = Ret m g' ->
     m !! 0%nat = Some (replicate (Z.to_nat 2) 0%Q)).
Proof.
  eexists. split; [vm_compute; reflexivity|].
  apply (first_sample_is_zero joe_kuo 4 2 31). vm_compute. reflexivity.
Defined.

Lemma sobol_row_length (g : SobolSample) (j : nat) :
  wf g -> (j < Z.to_nat (n_samples g))%nat ->
  length (sobol_row g j) = Z.to_nat (n_dimensions g).
Proof.
  intros Hwf Hj. destruct j as [|j]; unfold sobol_row.
  - apply length_replicate.
  - rewrite length_fmap. apply (gray_length g (Z.to_nat (L g) + 1) Hwf); lia.
Qed.



(** ** The grid of the samples *)

Lemma divide_lxor (t a b : Z) :
  0 <= t -> (2 ^ t | a) -> (2 ^ t | b) -> (2 ^ t | Z.lxor a b).
Proof.
  intros Ht [a' ->] [b' ->].
  rewrite <- !Z.shiftl_mul_pow2, <- Z.shiftl_lxor, Z.shiftl_mul_pow2 by assumption.
  apply Z.divide_factor_r.
Qed.

Lemma divide_shiftr (t s a : Z) :
  0 <= t -> 0 <= s -> (2 ^ (t + s) | a) -> (2 ^ t | Z.shiftr a s).
Proof.
  intros Ht Hs [c ->]. rewrite Z.shiftr_div_pow2, Z.pow_add_r by assumption.
  rewrite Z.mul_assoc, Z.div_mul by (apply Z.pow_nonzero; lia).
  apply Z.divide_factor_r.
Qed.

Lemma divide_pow2_le (t t' a : Z) : 0 <= t <= t' -> (2 ^ t' | a) -> (2 ^ t | a).
Proof.
  intros Ht [c ->]. replace t' with ((t' - t) + t) by lia.
  rewrite Z.pow_add_r, Z.mul_assoc by lia. apply Z.divide_factor_r.
Qed.

Lemma lag_xor_divide (m0 s t : Z) (col : Z -> Z) (j : Z) :
  1 <= s -> 0 <= t ->
  (forall k, 1 <= k <= s -> (2 ^ (t + k) | col (j - k))) ->
  (2 ^ t | lag_xor m0 s col j).
Proof.
  intros Hs Ht Hcol. unfold lag_xor.
  assert (forall l acc, (2 ^ t | acc) -> (forall k, k ∈ l -> 1 <= k < s) ->
            (2 ^ t | foldl (fun acc k => Z.lxor acc (bit (s - 1 - k) m0 * col (j - k)))
                       acc l)) as Hfold.
  { induction l as [|k l IH]; intros acc Hacc Hl; simpl; [assumption|].
    apply IH; [|intros k' Hk'; apply Hl; right; assumption].
    apply divide_lxor; [assumption..|]. apply Z.divide_mul_r.
    apply (divide_pow2_le t (t + k)); [specialize (Hl k ltac:(left)); lia|].
    apply Hcol. specialize (Hl k ltac:(left)). lia. }
  apply Hfold.
  - apply divide_lxor; [assumption| |].
    + apply (divide_pow2_le t (t + s)); [lia|]. apply Hcol. lia.
    + apply divide_shiftr; [lia..|]. apply Hcol. lia.
  - intros k Hk%elem_of_range. assumption.
Qed.

(** Row [j] of a column of direction numbers is a multiple of
    [2^(scale-j)], whatever the table holds. *)
Lemma column_divide (m : list Z) (sc l : Z) (col : Z -> Z) :
  column_law m sc l col -> m <> [] -> 0 <= l <= sc ->
  forall j, 0 <= j <= l -> (2 ^ (sc - j) | col j).
Proof.
  intros (H0 & Hseed & Hrec) Hne Hl.
  assert (0 <= Z.of_nat (length m) - 1) as Hs by (destruct m; [congruence|simpl; lia]).
  set (s := Z.of_nat (length m) - 1) in *.
  assert (forall k : nat, forall j, 0 <= j <= l -> j <= Z.of_nat k ->
            (2 ^ (sc - j) | col j)) as Hall.
  { induction k as [|k IH]; intros j Hj Hjk.
    - replace j with 0 by lia. rewrite H0. apply Z.divide_0_r.
    - destruct (Z.eq_dec j 0) as [->|Hj0]; [rewrite H0; apply Z.divide_0_r|].
      destruct (Z_le_gt_dec j s) as [Hjs|Hjs].
      + rewrite Hseed by lia. unfold seed. rewrite Z.shiftl_mul_pow2 by lia.
        apply Z.divide_factor_r.
      + rewrite Hrec by lia. destruct (Z.eq_dec s 0) as [Es|Es].
        * rewrite Es. unfold lag_xor. rewrite range_nil by lia. simpl.
          rewrite Z.sub_0_r, Z.shiftr_0_r, Z.lxor_nilpotent. apply Z.divide_0_r.
        * apply lag_xor_divide; [lia..|]. intros k' Hk'.
          replace (sc - j + k') with (sc - (j - k')) by lia. apply IH; lia. }
  intros j Hj. apply (Hall (Z.to_nat j)); lia.
Qed.

Lemma V_divide (directions : list (list Z)) (n d sc : Z) (g : SobolSample) :
  __init__ directions n d sc = Ok g ->
  forall j i, 1 <= j <= L g -> 0 <= i < d -> (2 ^ (sc - L g) | at_ (V g) j i).
Proof.
  intros Hinit j i Hj Hi.
  pose proof (init_inv _ _ _ _ _ Hinit) as (_ & Hd & _).
  apply init_facts in Hinit as (_ & _ & _ & _ & _ & _ & _ & HL & Hcol0 & Hlaw).
  apply (divide_pow2_le _ (sc - j)); [lia|].
  destruct (Z.eq_dec i 0) as [->|Hi0].
  - rewrite Hcol0 by lia. rewrite decide_True by lia. apply Z.divide_refl.
  - destruct (lookup_lt_is_Some_2 directions (Z.to_nat (i - 1))) as [m Hm]; [lia|].
    destruct (Hlaw (i - 1) m ltac:(lia) Hm) as (Hne & Hcol).
    replace (i - 1 + 1) with i in Hcol by lia.
    apply (column_divide m sc (L g) _ Hcol Hne HL). lia.
Qed.

Lemma gray_at_divide (g : SobolSample) (t i : Z) (j : nat) :
  wf g -> 0 <= t ->
  (forall r, 1 <= r <= L g -> (2 ^ t | at_ (V g) r i)) ->
  (j < Z.to_nat (n_samples g))%nat ->
  (2 ^ t | gray_at (V g) i j).
Proof.
  intros Hwf Ht Hat. induction j as [|j IH]; intros Hj; simpl.
  - apply Z.divide_0_r.
  - apply divide_lxor; [assumption|apply IH; lia|]. apply Hat.
    destruct Hwf as ((_ & Hpow) & HL & _).
    pose proof (lsz_range (Z.to_nat (L g)) (Z.of_nat j)) as Hr.
    rewrite Z2Nat.id in Hr by assumption. apply Hr. lia.
Qed.

Lemma coordinate_grid (sc l c : Z) :
  0 <= l <= sc ->
  (coordinate sc (c * 2 ^ (sc - l)) * inject_Z (2 ^ l) == inject_Z c)%Q.
Proof.
  intros Hl. unfold coordinate.
  assert (Qpower 2 sc == inject_Z (2 ^ (sc - l)) * inject_Z (2 ^ l))%Q as ->.
  { rewrite <- inject_Z_mult, <- Z.pow_add_r by lia.
    replace (sc - l + l) with sc by lia. symmetry. apply (Zpower_Qpower 2 sc). lia. }
  rewrite inject_Z_mult.
  assert (~ inject_Z (2 ^ (sc - l)) == 0)%Q as H1.
  { change 0%Q with (inject_Z 0). rewrite inject_Z_injective.
    apply Z.pow_nonzero; lia. }
  assert (~ inject_Z (2 ^ l) == 0)%Q as H2.
  { change 0%Q with (inject_Z 0). rewrite inject_Z_injective.
    apply Z.pow_nonzero; lia. }
  field. split; assumption.
Qed.



(** ** More samples, more dimensions *)

(** The column law fixes the column: the rows [0 .. l] do not depend on how
    many further rows are built. *)
Lemma column_law_unique (m : list Z) (sc l l' : Z) (col col' : Z -> Z) :
  column_law m sc l col -> column_law m sc l' col' -> l <= l' -> m <> [] ->
  forall j, 0 <= j <= l -> col j = col' j.
Proof.
  intros (H0 & Hseed & Hrec) (H0' & Hseed' & Hrec') Hl Hne.
  assert (0 <= Z.of_nat (length m) - 1) as Hs by (destruct m; [congruence|simpl; lia]).
  set (s := Z.of_nat (length m) - 1) in *.
  assert (forall k : nat, forall j, 0 <= j <= l -> j <= Z.of_nat k -> col j = col' j)
    as Hall.
  { induction k as [|k IH]; intros j Hj Hjk.
    - replace j with 0 by lia. congruence.
    - destruct (Z.eq_dec j 0) as [->|Hj0]; [congruence|].
      destruct (Z_le_gt_dec j s) as [Hjs|Hjs].
      + rewrite Hseed, Hseed' by lia. reflexivity.
      + rewrite Hrec, Hrec' by lia. destruct (Z.eq_dec s 0) as [Es|Es].
        * rewrite Es. unfold lag_xor. rewrite range_nil by lia. simpl.
          rewrite !Z.sub_0_r, !Z.shiftr_0_r, !Z.lxor_nilpotent. reflexivity.
        * apply lag_xor_ext. intros r Hr1 Hr2. apply IH; lia. }
  intros j Hj. apply (Hall (Z.to_nat j)); lia.
Qed.

Section Block.

Variable directions : list (list Z).
Variables (n n' d d' sc : Z) (g g' : SobolSample).
Hypothesis Hinit : __init__ directions n d sc = Ok g.
Hypothesis Hinit' : __init__ directions n' d' sc = Ok g'.
Hypothesis Hn : n <= n'.
Hypothesis Hd : d <= d'.

Lemma L_le : L g <= L g'.
Proof using Hinit Hinit' Hn.
  apply init_facts in Hinit as (_ & _ & _ & _ & _ & _ & -> & _).
  apply init_facts in Hinit' as (_ & _ & _ & _ & _ & _ & -> & _).
  apply Z.log2_up_le_mono. assumption.
Qed.

Lemma V_agree (j i : Z) :
  0 <= j <= L g -> 0 <= i < d -> at_ (V g) j i = at_ (V g') j i.
Proof using Hinit Hinit' Hn Hd.
  intros Hj Hi. pose proof L_le as HLL.
  pose proof (init_inv _ _ _ _ _ Hinit) as (_ & Hdlen & _).
  apply init_facts in Hinit as (_ & _ & _ & _ & _ & _ & _ & HL & Hcol0 & Hlaw).
  apply init_facts in Hinit' as (_ & _ & _ & _ & _ & _ & _ & HL' & Hcol0' & Hlaw').
  destruct (Z.eq_dec i 0) as [->|Hi0].
  - rewrite Hcol0, Hcol0' by lia.
    destruct (decide (1 <= j <= L g)).
    + rewrite decide_True by lia. reflexivity.
    + rewrite decide_False by lia. reflexivity.
  - destruct (lookup_lt_is_Some_2 directions (Z.to_nat (i - 1))) as [m Hm]; [lia|].
    destruct (Hlaw (i - 1) m ltac:(lia) Hm) as (Hne & Hcol).
    destruct (Hlaw' (i - 1) m ltac:(lia) Hm) as (_ & Hcol').
    replace (i - 1 + 1) with i in Hcol, Hcol' by lia.
    apply (column_law_unique m sc (L g) (L g') _ _ Hcol Hcol' HLL Hne). lia.
Qed.

Lemma gray_at_agree (i : Z) (j : nat) :
  0 <= i < d -> (j < Z.to_nat n)%nat ->
  gray_at (V g) i j = gray_at (V g') i j.
Proof using Hinit Hinit' Hn Hd.
  intros Hi. induction j as [|j IH]; intros Hj; simpl; [reflexivity|].
  rewrite IH by lia. f_equal. apply V_agree; [|assumption].
  apply init_facts in Hinit as (((_ & Hpow) & HL & _) & _ & _ & Hns & _).
  pose proof (lsz_range (Z.to_nat (L g)) (Z.of_nat j)) as Hr.
  rewrite Z2Nat.id in Hr by assumption. lia.
Qed.

(** Sample [j] over [d] dimensions is the head of sample [j] over [d']. *)
Lemma sobol_row_block (j : nat) :
  (j < Z.to_nat n)%nat -> sobol_row g j = take (Z.to_nat d) (sobol_row g' j).
Proof using Hinit Hinit' Hn Hd.
  intros Hj.
  pose proof (init_facts _ _ _ _ _ Hinit) as (Hwf & _ & _ & Hns & Hnd & Hsc & _).
  pose proof (init_facts _ _ _ _ _ Hinit') as (Hwf' & _ & _ & Hns' & Hnd' & Hsc' & _).
  pose proof Hwf as (_ & _ & Hd1 & _).
  destruct j as [|j]; unfold sobol_row.
  - rewrite take_replicate, Hnd, Hnd'. f_equal. lia.
  - rewrite Hsc, Hsc', Hnd, Hnd'. apply list_eq. intros i.
    destruct (Nat.lt_ge_cases i (Z.to_nat d)) as [Hi|Hi].
    + rewrite lookup_take_lt by assumption. rewrite !list_lookup_fmap.
      rewrite <- Hnd, <- Hnd'.
      rewrite (gray_lookup g (S j) i Hwf) by lia.
      rewrite (gray_lookup g' (S j) i Hwf') by lia.
      rewrite (gray_at_agree (Z.of_nat i) (S j)) by lia. reflexivity.
    + rewrite lookup_take_ge by assumption. apply lookup_ge_None.
      rewrite length_fmap, <- Hnd.
      rewrite (gray_length g (Z.to_nat (L g) + 1) Hwf) by lia. lia.
Qed.

End Block.



(** ** Calling generate_sample directly *)

(** X11: [generate_sample] has no test of the cursor.  On a generator whose
    [n_samples] samples have all been handed out, a direct call returns one
    more sample (and moves the cursor to [n_samples + 1]) as long as
    [n_samples < 2^L]; when [n_samples = 2^L] it asks for row [L+1] of [V],
    raises [IndexError] and leaves the generator as it was. *)
Theorem generate_sample_unguarded (directions : list (list Z)) (n d sc : Z)
    (g gn : SobolSample) (fuel : nat) :
  __init__ directions n d sc = Ok g ->
  (Z.to_nat (Z.log2_up n) + 1 <= fuel)%nat ->
  state_after fuel (Z.to_nat n) g = Some gn ->
  (n < 2 ^ L g ->
     exists a g', generate_sample fuel gn = Ret a g' /\
       current g' = n + 1 /\ length a = Z.to_nat d) /\
  (n = 2 ^ L g -> generate_sample fuel gn = Raise IndexError gn).
Proof.
  intros Hinit Hfuel Hk.
  apply init_facts in Hinit as (Hwf & Hcur & HY & Hn & Hd & Hsc & HL & _).
  rewrite <- HL in Hfuel.
  pose proof (state_after_ok g fuel Hwf Hfuel (Z.to_nat n) 0%nat ltac:(lia)) as Hk'.
  rewrite (state_at_0 g Hcur HY) in Hk'. simpl in Hk'.
  rewrite Hn, Nat.min_id in Hk'.
  assert (gn = state_at g (Z.to_nat n)) as -> by congruence.
  pose proof Hwf as ((Hn1 & Hpow) & HL0 & Hd1 & Hsh).
  assert (length (gray (V g) (Z.to_nat (n_dimensions g)) (pred (Z.to_nat n)))
          = Z.to_nat (n_dimensions g)) as HlenY
    by (apply (gray_length g fuel Hwf Hfuel); lia).
  split.
  - intros Hlt.
    assert (0 <= n - 1 < 2 ^ Z.of_nat (Z.to_nat (L g)) - 1) as Hv
      by (rewrite Z2Nat.id by assumption; lia).
    pose proof (lsz_range _ _ Hv) as Hr.
    destruct (lookup_lt_is_Some_2 (V g) (Z.to_nat (lsz (n - 1)))) as [row Hrow];
      [destruct Hsh; lia|].
    pose proof (shape_lookup _ _ _ _ _ Hsh Hrow) as Hlrow.
    rewrite (generate_sample_ok fuel _ (lsz (n - 1)) row).
    + eexists _, _. split; [reflexivity|]. simpl. split; [lia|].
      rewrite length_fmap, length_zip_with, HlenY, Hlrow, Hd. lia.
    + simpl. lia.
    + change (current (state_at g (Z.to_nat n))) with (Z.of_nat (Z.to_nat n)).
      rewrite Z2Nat.id by lia. apply (lsz_run (Z.to_nat (L g))); lia.
    + lia.
    + exact Hrow.
    + exact Hlrow.
    + exact HlenY.
  - intros Heq.
    destruct (lookup_lt_is_Some_2
                (gray (V g) (Z.to_nat (n_dimensions g)) (pred (Z.to_nat n))) 0)
      as [y Hy]; [lia|].
    unfold generate_sample. rewrite bind_run. unfold get at 1.
    rewrite bind_run.
    change (n_dimensions (state_at g (Z.to_nat n))) with (n_dimensions g).
    rewrite (range_cons 0) by lia. cbn [for_].
    rewrite bind_run. unfold sample_step. rewrite bind_run. unfold get at 1.
    rewrite bind_run.
    change (Y (state_at g (Z.to_nat n)))
      with (gray (V g) (Z.to_nat (n_dimensions g)) (pred (Z.to_nat n))).
    rewrite (getitem_ok _ 0 y) by (lia || exact Hy).
    unfold lift at 1. rewrite bind_run.
    change (current (state_at g (Z.to_nat n))) with (Z.of_nat (Z.to_nat n)).
    rewrite Z2Nat.id by lia. unfold index_of_least_significant_zero_bit.
    replace (n - 1) with (2 ^ Z.of_nat (Z.to_nat (L g)) - 1)
      by (rewrite Z2Nat.id by assumption; lia).
    rewrite lsz_loop_ones by lia. unfold loop_result at 1. rewrite bind_run.
    change (V (state_at g (Z.to_nat n))) with (V g).
    unfold mget. rewrite (getitem_out (V g)) by (destruct Hsh; lia).
    reflexivity.
Qed.

Lemma generate_sample_unguarded_witness :
  (exists g gn, __init__ joe_kuo 3 2 31 = Ok g /\ state_after 3 (Z.to_nat 3) g = Some gn /\
     exists a g', generate_sample 3 gn = Ret a g' /\
       current g' = 3 + 1 /\ length a = Z.to_nat 2) /\
  (exists g gn, __init__ joe_kuo 4 2 31 = Ok g /\ state_after 3 (Z.to_nat 4) g = Some gn /\
     generate_sample 3 gn = Raise IndexError gn).
Proof.
  split.
  - eexists _, _. split; [vm_compute; reflexivity|]. split; [vm_compute; reflexivity|].
    refine (proj1 (generate_sample_unguarded joe_kuo 3 2 31 _ _ 3%nat _ _ _) _);
      vm_compute; try reflexivity; lia.
  - eexists _, _. split; [vm_compute; reflexivity|]. split; [vm_compute; reflexivity|].
    refine (proj2 (generate_sample_unguarded joe_kuo 4 2 31 _ _ 3%nat _ _ _) _);
      vm_compute; try reflexivity; lia.
Defined.

(** ** Iterating over the generator *)

Lemma exhaust_ok (g : SobolSample) (fuel : nat) :
  wf g -> (Z.to_nat (L g) + 1 <= fuel)%nat ->
  forall (r c calls : nat),
    (c + r = Z.to_nat (n_samples g))%nat -> (r + 1 <= calls)%nat ->
    exhaust fuel calls (state_at g c) =
      Ret (output g <$> seq c r) (state_at g (Z.to_nat (n_samples g))).
Proof.
  intros Hwf Hfuel. induction r as [|r IH]; intros c calls Hc Hcalls.
  - destruct calls as [|calls]; [lia|]. simpl.
    rewrite next_exhausted by (simpl; destruct Hwf; lia).
    replace c with (Z.to_nat (n_samples g)) by lia. reflexivity.
  - destruct calls as [|calls]; [lia|]. simpl.
    rewrite (next_state_at g fuel Hwf Hfuel) by lia.
    rewrite bind_run, (IH (S c) calls) by lia. reflexivity.
Qed.



(** ** The scale *)

Lemma lxor_mul_pow2 (t a b : Z) :
  0 <= t -> Z.lxor (a * 2 ^ t) (b * 2 ^ t) = Z.lxor a b * 2 ^ t.
Proof.
  intros Ht. rewrite <- !Z.shiftl_mul_pow2, <- Z.shiftl_lxor by assumption. reflexivity.
Qed.

Lemma shiftr_mul_pow2 (t s a : Z) :
  0 <= t -> 0 <= s -> (2 ^ s | a) -> Z.shiftr (a * 2 ^ t) s = Z.shiftr a s * 2 ^ t.
Proof.
  intros Ht Hs [c ->]. rewrite !Z.shiftr_div_pow2 by assumption.
  replace (c * 2 ^ s * 2 ^ t) with (c * 2 ^ t * 2 ^ s) by ring.
  rewrite !Z.div_mul by (apply Z.pow_nonzero; lia). reflexivity.
Qed.

Lemma lag_xor_scale (m0 s t : Z) (col : Z -> Z) (j : Z) :
  0 <= s -> 0 <= t -> (2 ^ s | col (j - s)) ->
  lag_xor m0 s (fun r => col r * 2 ^ t) j = lag_xor m0 s col j * 2 ^ t.
Proof.
  intros Hs Ht Hdiv. unfold lag_xor.
  rewrite shiftr_mul_pow2, lxor_mul_pow2 by assumption.
  generalize (Z.lxor (col (j - s)) (Z.shiftr (col (j - s)) s)).
  induction (range 1 s) as [|k l IH]; intros acc; simpl; [reflexivity|].
  rewrite Z.mul_assoc, lxor_mul_pow2 by assumption. apply IH.
Qed.

(** A column at the scale [sc + t] is the column at the scale [sc], shifted
    left by [t]. *)
Lemma column_scale (m : list Z) (sc sc' l : Z) (col col' : Z -> Z) :
  column_law m sc l col -> column_law m sc' l col' -> m <> [] ->
  0 <= l <= sc -> sc <= sc' ->
  forall j, 0 <= j <= l -> col' j = col j * 2 ^ (sc' - sc).
Proof.
  intros Hcol Hcol' Hne Hl Hsc j Hj.
  pose proof (column_divide m sc l col Hcol Hne Hl) as Hdiv.
  symmetry.
  apply (column_law_unique m sc' l l (fun r => col r * 2 ^ (sc' - sc)) col');
    [|assumption|lia|assumption|assumption].
  destruct Hcol as (H0 & Hseed & Hrec).
  assert (0 <= Z.of_nat (length m) - 1) as Hs by (destruct m; [congruence|simpl; lia]).
  split; [|split].
  - simpl. rewrite H0. reflexivity.
  - intros r Hr. simpl in Hr. rewrite Hseed by (simpl; lia). unfold seed.
    rewrite !Z.shiftl_mul_pow2 by lia. rewrite <- Z.mul_assoc, <- Z.pow_add_r by lia.
    do 2 f_equal. lia.
  - intros r Hr. simpl in Hr. rewrite Hrec by lia. symmetry.
    apply lag_xor_scale; [lia..|].
    apply (divide_pow2_le _ (sc - (r - (Z.of_nat (length m) - 1)))); [lia|].
    apply Hdiv. lia.
Qed.

Lemma coordinate_scale (sc sc' y : Z) :
  0 <= sc <= sc' -> (coordinate sc' (y * 2 ^ (sc' - sc)) == coordinate sc y)%Q.
Proof.
  intros Hsc. unfold coordinate.
  assert (Qpower 2 sc == inject_Z (2 ^ sc))%Q as ->
    by (symmetry; apply (Zpower_Qpower 2 sc); lia).
  assert (Qpower 2 sc' == inject_Z (2 ^ sc) * inject_Z (2 ^ (sc' - sc)))%Q as ->.
  { rewrite <- inject_Z_mult, <- Z.pow_add_r by lia.
    replace (sc + (sc' - sc)) with sc' by lia. symmetry. apply (Zpower_Qpower 2 sc'). lia. }
  rewrite inject_Z_mult.
  assert (~ inject_Z (2 ^ sc) == 0)%Q as H1.
  { change 0%Q with (inject_Z 0). rewrite inject_Z_injective.
    apply Z.pow_nonzero; lia. }
  assert (~ inject_Z (2 ^ (sc' - sc)) == 0)%Q as H2.
  { change 0%Q with (inject_Z 0). rewrite inject_Z_injective.
    apply Z.pow_nonzero; lia. }
  field. split; assumption.
Qed.

Section Scale.

Variable directions : list (list Z).
Variables (n d sc sc' : Z) (g g' : SobolSample).
Hypothesis Hinit : __init__ directions n d sc = Ok g.
Hypothesis Hinit' : __init__ directions n d sc' = Ok g'.
Hypothesis Hsc : sc <= sc'.

Lemma V_scale (j i : Z) :
  0 <= j <= L g -> 0 <= i < d -> at_ (V g') j i = at_ (V g) j i * 2 ^ (sc' - sc).
Proof using Hinit Hinit' Hsc.
  intros Hj Hi.
  pose proof (init_inv _ _ _ _ _ Hinit) as (_ & Hdlen & _).
  apply init_facts in Hinit as (_ & _ & _ & _ & _ & _ & HLn & HL & Hcol0 & Hlaw).
  apply init_facts in Hinit' as (_ & _ & _ & _ & _ & _ & HLn' & HL' & Hcol0' & Hlaw').
  assert (L g' = L g) as HLL by congruence. rewrite HLL in *.
  destruct (Z.eq_dec i 0) as [->|Hi0].
  - rewrite Hcol0, Hcol0' by lia.
    destruct (decide (1 <= j <= L g)); [|reflexivity].
    rewrite <- Z.pow_add_r by lia. f_equal. lia.
  - destruct (lookup_lt_is_Some_2 directions (Z.to_nat (i - 1))) as [m Hm]; [lia|].
    destruct (Hlaw (i - 1) m ltac:(lia) Hm) as (Hne & Hcol).
    destruct (Hlaw' (i - 1) m ltac:(lia) Hm) as (_ & Hcol').
    replace (i - 1 + 1) with i in Hcol, Hcol' by lia.
    apply (column_scale m sc sc' (L g) _ _ Hcol Hcol' Hne); lia.
Qed.

Lemma gray_at_scale (i : Z) (j : nat) :
  0 <= i < d -> (j < Z.to_nat n)%nat ->
  gray_at (V g') i j = gray_at (V g) i j * 2 ^ (sc' - sc).
Proof using Hinit Hinit' Hsc.
  intros Hi. induction j as [|j IH]; intros Hj; simpl; [reflexivity|].
  rewrite IH by lia. rewrite <- lxor_mul_pow2 by lia. f_equal.
  apply V_scale; [|assumption].
  apply init_facts in Hinit as (((_ & Hpow) & HL & _) & _ & _ & Hns & _).
  pose proof (lsz_range (Z.to_nat (L g)) (Z.of_nat j)) as Hr.
  rewrite Z2Nat.id in Hr by assumption. lia.
Qed.

Lemma sobol_row_scale (j : nat) :
  (j < Z.to_nat n)%nat -> Forall2 Qeq (sobol_row g j) (sobol_row g' j).
Proof using Hinit Hinit' Hsc.
  intros Hj.
  pose proof (init_facts _ _ _ _ _ Hinit) as (Hwf & _ & _ & Hns & Hnd & Hs & _ & HL & _).
  pose proof (init_facts _ _ _ _ _ Hinit') as (Hwf' & _ & _ & Hns' & Hnd' & Hs' & _).
  destruct j as [|j]; unfold sobol_row.
  - rewrite Hnd, Hnd'. apply Forall2_replicate. reflexivity.
  - rewrite Hs, Hs'. apply Forall2_fmap.
    apply Forall2_same_length_lookup_2.
    + rewrite (gray_length g (Z.to_nat (L g) + 1) Hwf) by lia.
      rewrite (gray_length g' (Z.to_nat (L g') + 1) Hwf') by lia. congruence.
    + intros i y y' Hy Hy'.
      assert (i < Z.to_nat d)%nat as Hi.
      { apply lookup_lt_Some in Hy.
        rewrite (gray_length g (Z.to_nat (L g) + 1) Hwf) in Hy by lia. lia. }
      rewrite (gray_lookup g (S j) i Hwf) in Hy by lia.
      rewrite (gray_lookup g' (S j) i Hwf') in Hy' by lia.
      assert (y = gray_at (V g) (Z.of_nat i) (S j)) as -> by congruence.
      assert (y' = gray_at (V g') (Z.of_nat i) (S j)) as -> by congruence.
      rewrite (gray_at_scale (Z.of_nat i) (S j)) by lia.
      symmetry. apply coordinate_scale. lia.
Qed.

Lemma samples_scale (fuel : nat) :
  (Z.to_nat (Z.log2_up n) + 1 <= fuel)%nat ->
  exists m m',
    generate_all_samples fuel g = Ret m g /\
    generate_all_samples fuel g' = Ret m' g' /\
    Forall2 (Forall2 Qeq) m m'.
Proof using Hinit Hinit' Hsc.
  intros Hfuel.
  pose proof (init_facts _ _ _ _ _ Hinit) as (Hwf & _ & _ & Hns & _ & _ & HL & _).
  pose proof (init_facts _ _ _ _ _ Hinit') as (Hwf' & _ & _ & Hns' & _ & _ & HL' & _).
  exists (sobol_row g <$> seq 0 (Z.to_nat n)), (sobol_row g' <$> seq 0 (Z.to_nat n)).
  split; [|split].
  - rewrite <- Hns. apply generate_all_samples_ok; [assumption|lia].
  - rewrite <- Hns'. apply generate_all_samples_ok; [assumption|lia].
  - apply Forall2_fmap, Forall_Forall2_diag, Forall_forall.
    intros j Hj%elem_of_seq. apply sobol_row_scale. lia.
Qed.

End Scale.



(** ** The first dimension: the van der Corput points in Gray-code order *)

Lemma testbit_add_pow2 (w a r i : Z) :
  0 <= w -> 0 <= r < 2 ^ w -> 0 <= i ->
  Z.testbit (a * 2 ^ w + r) i = if i <? w then Z.testbit r i else Z.testbit a (i - w).
Proof.
  intros Hw Hr Hi. destruct (Z.ltb_spec i w).
  - rewrite <- (Z.mod_pow2_bits_low (a * 2 ^ w + r) w i) by lia.
    rewrite Z.add_comm, Z.mod_add by lia. rewrite Z.mod_small by lia. reflexivity.
  - replace i with ((i - w) + w) at 1 by lia.
    rewrite <- Z.div_pow2_bits by lia.
    rewrite Z.add_comm, Z.div_add by lia. rewrite Z.div_small by lia. reflexivity.
Qed.

Lemma bits_above (w a i : Z) : 0 <= a < 2 ^ w -> 0 <= w <= i -> Z.testbit a i = false.
Proof.
  intros Ha Hi. rewrite <- (Z.mod_small a (2 ^ w)) by lia.
  apply Z.mod_pow2_bits_high. lia.
Qed.

Lemma bits_below (w a : Z) :
  0 <= w -> (forall i, w <= i -> Z.testbit a i = false) -> 0 <= a < 2 ^ w.
Proof.
  intros Hw Hbits. assert (a = a mod 2 ^ w) as ->.
  { apply Z.bits_inj'. intros i Hi. destruct (Z.lt_ge_cases i w).
    - rewrite Z.mod_pow2_bits_low by lia. reflexivity.
    - rewrite Z.mod_pow2_bits_high by lia. apply Hbits. lia. }
  apply Z.mod_pos_bound. lia.
Qed.

Lemma reverse_bits_spec (w : nat) :
  forall x, 0 <= reverse_bits w x < 2 ^ Z.of_nat w /\
    forall i, 0 <= i ->
      Z.testbit (reverse_bits w x) i
      = (i <? Z.of_nat w) && Z.testbit x (Z.of_nat w - 1 - i).
Proof.
  induction w as [|w IH]; intros x.
  - cbn [reverse_bits]. split; [lia|]. intros i Hi. rewrite Z.bits_0.
    destruct (Z.ltb_spec i (Z.of_nat 0)); [lia|reflexivity].
  - destruct (IH (Z.shiftr x 1)) as (Hb & Hbits).
    cbn [reverse_bits]. split.
    + unfold bit. rewrite Nat2Z.inj_succ, Z.pow_succ_r by lia.
      destruct (Z.testbit x 0); simpl Z.b2z; lia.
    + intros i Hi. rewrite testbit_add_pow2 by lia. rewrite Nat2Z.inj_succ.
      destruct (Z.ltb_spec i (Z.of_nat w)) as [Hlt|Hge].
      * rewrite Hbits by lia. rewrite Z.shiftr_spec by lia.
        destruct (Z.ltb_spec i (Z.of_nat w)); [|lia].
        destruct (Z.ltb_spec i (Z.succ (Z.of_nat w))); [|lia].
        cbn [andb]. f_equal. lia.
      * unfold bit. destruct (Z.eq_dec i (Z.of_nat w)) as [->|Hne].
        -- rewrite Z.sub_diag, Z.b2z_bit0.
           destruct (Z.ltb_spec (Z.of_nat w) (Z.succ (Z.of_nat w))); [|lia].
           cbn [andb]. f_equal. lia.
        -- destruct (Z.ltb_spec i (Z.succ (Z.of_nat w))); [lia|]. cbn [andb].
           destruct (Z.testbit x 0); simpl Z.b2z.
           ++ change 1 with (2 ^ 0). rewrite Z.pow2_bits_false by lia. reflexivity.
           ++ apply Z.bits_0.
Qed.

Lemma reverse_bits_lxor (w : nat) (a b : Z) :
  reverse_bits w (Z.lxor a b) = Z.lxor (reverse_bits w a) (reverse_bits w b).
Proof.
  apply Z.bits_inj'. intros i Hi. rewrite Z.lxor_spec.
  rewrite !(proj2 (reverse_bits_spec w _)) by assumption. rewrite Z.lxor_spec.
  destruct (i <? Z.of_nat w); reflexivity.
Qed.

Lemma reverse_bits_pow2 (w : nat) (t : Z) :
  0 <= t < Z.of_nat w -> reverse_bits w (2 ^ t) = 2 ^ (Z.of_nat w - 1 - t).
Proof.
  intros Ht. apply Z.bits_inj'. intros i Hi.
  rewrite (proj2 (reverse_bits_spec w _)) by assumption.
  rewrite !Z.pow2_bits_eqb by lia.
  destruct (Z.ltb_spec i (Z.of_nat w)); simpl.
  - destruct (Z.eqb_spec t (Z.of_nat w - 1 - i)), (Z.eqb_spec (Z.of_nat w - 1 - t) i);
      reflexivity || lia.
  - destruct (Z.eqb_spec (Z.of_nat w - 1 - t) i); reflexivity || lia.
Qed.

Lemma reverse_bits_inj (w : nat) (a b : Z) :
  0 <= a < 2 ^ Z.of_nat w -> 0 <= b < 2 ^ Z.of_nat w ->
  reverse_bits w a = reverse_bits w b -> a = b.
Proof.
  intros Ha Hb Heq. apply Z.bits_inj'. intros t Ht.
  destruct (Z.lt_ge_cases t (Z.of_nat w)) as [Hlt|Hge].
  - pose proof (proj2 (reverse_bits_spec w a) (Z.of_nat w - 1 - t) ltac:(lia)) as H1.
    pose proof (proj2 (reverse_bits_spec w b) (Z.of_nat w - 1 - t) ltac:(lia)) as H2.
    rewrite Heq in H1. rewrite H1 in H2.
    destruct (Z.ltb_spec (Z.of_nat w - 1 - t) (Z.of_nat w)); [|lia]. simpl in H2.
    replace (Z.of_nat w - 1 - (Z.of_nat w - 1 - t)) with t in H2 by lia. exact H2.
  - rewrite (bits_above (Z.of_nat w) a), (bits_above (Z.of_nat w) b) by lia. reflexivity.
Qed.

(** Reversing [w] bits of a number of [k <= w] bits. *)
Lemma reverse_bits_low (k w : nat) (x : Z) :
  (k <= w)%nat -> 0 <= x < 2 ^ Z.of_nat k ->
  reverse_bits w x = reverse_bits k x * 2 ^ (Z.of_nat w - Z.of_nat k).
Proof.
  intros Hk Hx. apply Z.bits_inj'. intros i Hi.
  rewrite <- Z.shiftl_mul_pow2 by lia. rewrite Z.shiftl_spec by assumption.
  rewrite (proj2 (reverse_bits_spec w _)) by assumption.
  destruct (Z.lt_ge_cases i (Z.of_nat w - Z.of_nat k)) as [Hlt|Hge].
  - rewrite (Z.testbit_neg_r _ (i - _)) by lia.
    rewrite (bits_above (Z.of_nat k) x) by lia. apply andb_false_r.
  - rewrite (proj2 (reverse_bits_spec k _)) by lia.
    replace (Z.of_nat k - 1 - (i - (Z.of_nat w - Z.of_nat k)))
      with (Z.of_nat w - 1 - i) by lia.
    destruct (Z.ltb_spec i (Z.of_nat w)),
             (Z.ltb_spec (i - (Z.of_nat w - Z.of_nat k)) (Z.of_nat k));
      reflexivity || lia.
Qed.

(** Adding one flips the trailing ones and the lowest zero. *)
Lemma lxor_succ_loop (fuel : nat) :
  forall v idx k, lsz_loop fuel v idx = Some k ->
    Z.lxor v (v + 1) = Z.ones (k - idx + 1) /\ idx <= k.
Proof.
  induction fuel as [|fuel IH]; intros v idx k; simpl; [discriminate|].
  rewrite land_1_testbit. destruct (Z.testbit v 0) eqn:E0; simpl.
  - intros H. destruct (IH _ _ _ H) as (IHx & Hle). split; [|lia].
    apply Z.bits_inj'. intros i Hi. rewrite Z.lxor_spec.
    pose proof (odd_shiftr v E0) as Hv.
    set (a := Z.shiftr v 1) in *.
    replace (v + 1) with (2 * (a + 1)) by lia. rewrite Hv.
    rewrite Z.testbit_ones_nonneg by lia.
    destruct (Z.eq_dec i 0) as [->|Hi0].
    + rewrite Z.testbit_odd_0, Z.testbit_even_0.
      destruct (Z.ltb_spec 0 (k - idx + 1)); [reflexivity|lia].
    + replace i with (Z.succ (i - 1)) by lia.
      rewrite Z.testbit_odd_succ, Z.testbit_even_succ by lia.
      rewrite <- Z.lxor_spec, IHx. rewrite Z.testbit_ones_nonneg by lia.
      destruct (Z.ltb_spec (i - 1) (k - (idx + 1) + 1)),
               (Z.ltb_spec (Z.succ (i - 1)) (k - idx + 1)); reflexivity || lia.
  - intros [= <-]. split; [|lia]. replace (idx - idx + 1) with 1 by lia.
    apply Z.bits_inj'. intros i Hi. rewrite Z.lxor_spec.
    assert (v = 2 * Z.shiftr v 1) as Hv.
    { rewrite Z.shiftr_div_pow2 by lia. change (2 ^ 1) with 2.
      pose proof (Z.div_mod v 2 ltac:(lia)) as Hdm.
      pose proof (Z.bit0_mod v) as Hm. rewrite E0 in Hm. simpl Z.b2z in Hm. lia. }
    set (a := Z.shiftr v 1) in *. rewrite Hv.
    rewrite Z.testbit_ones_nonneg by lia.
    destruct (Z.eq_dec i 0) as [->|Hi0].
    + rewrite Z.testbit_odd_0, Z.testbit_even_0. reflexivity.
    + replace i with (Z.succ (i - 1)) by lia.
      rewrite Z.testbit_odd_succ, Z.testbit_even_succ by lia.
      rewrite xorb_nilpotent.
      destruct (Z.ltb_spec (Z.succ (i - 1)) 1); [lia|reflexivity].
Qed.

Lemma lsz_value (v : Z) :
  0 <= v -> lsz_loop (Z.to_nat (Z.log2 v) + 2) v 1 = Some (lsz v).
Proof.
  intros Hv. unfold lsz, index_of_least_significant_zero_bit.
  destruct (lsz_fuel v (Z.to_nat (Z.log2 v) + 2) 1 Hv ltac:(lia)) as [k ->].
  reflexivity.
Qed.

(** One step of the Gray code flips the bit that the method indexes. *)
Lemma gray_code_succ (j : Z) :
  0 <= j -> 1 <= lsz j /\ gray_code (j + 1) = Z.lxor (gray_code j) (2 ^ (lsz j - 1)).
Proof.
  intros Hj. destruct (lxor_succ_loop _ _ _ _ (lsz_value j Hj)) as (Hx & Hk).
  split; [assumption|]. unfold gray_code.
  replace (lsz j - 1 + 1) with (lsz j) in Hx by lia.
  apply Z.bits_inj'. intros i Hi.
  assert (forall t, 0 <= t ->
            Z.testbit (j + 1) t = xorb (Z.testbit j t) (t <? lsz j)) as Hbit.
  { intros t Ht. rewrite <- Z.testbit_ones_nonneg, <- Hx by lia.
    rewrite Z.lxor_spec. destruct (Z.testbit j t), (Z.testbit (j + 1) t); reflexivity. }
  rewrite !Z.lxor_spec, !Z.shiftr_spec, !Hbit by lia.
  rewrite Z.pow2_bits_eqb by lia.
  destruct (Z.ltb_spec i (lsz j)), (Z.ltb_spec (i + 1) (lsz j)),
           (Z.eqb_spec (lsz j - 1) i);
    try lia; destruct (Z.testbit j i), (Z.testbit j (i + 1)); reflexivity.
Qed.

Lemma gray_code_bound (k j : Z) : 0 <= k -> 0 <= j < 2 ^ k -> 0 <= gray_code j < 2 ^ k.
Proof.
  intros Hk Hj. apply bits_below; [assumption|]. intros i Hi. unfold gray_code.
  rewrite Z.lxor_spec, Z.shiftr_spec by lia.
  rewrite !(bits_above k j) by lia. reflexivity.
Qed.

Lemma gray_code_inj (a b : Z) : 0 <= a -> 0 <= b -> gray_code a = gray_code b -> a = b.
Proof.
  intros Ha Hb Heq. apply Z.lxor_eq. unfold gray_code in Heq.
  assert (Z.lxor a b = Z.shiftr (Z.lxor a b) 1) as Hx.
  { rewrite Z.shiftr_lxor. apply Z.bits_inj'. intros i Hi.
    pose proof (f_equal (fun z => Z.testbit z i) Heq) as Hc. simpl in Hc.
    rewrite !Z.lxor_spec in *.
    destruct (Z.testbit a i), (Z.testbit b i), (Z.testbit (Z.shiftr a 1) i),
             (Z.testbit (Z.shiftr b 1) i); simpl in *; congruence. }
  assert (0 <= Z.lxor a b) as Hnn by (apply Z.lxor_nonneg; lia).
  rewrite Z.shiftr_div_pow2 in Hx by lia. change (2 ^ 1) with 2 in Hx.
  pose proof (Z.div_mod (Z.lxor a b) 2 ltac:(lia)) as Hdm.
  pose proof (Z.mod_pos_bound (Z.lxor a b) 2 ltac:(lia)). lia.
Qed.

Lemma reverse_bits_0 (w : nat) : reverse_bits w 0 = 0.
Proof.
  apply Z.bits_inj'. intros i Hi.
  rewrite (proj2 (reverse_bits_spec w 0)) by assumption.
  rewrite !Z.bits_0. apply andb_false_r.
Qed.

Section FirstDimension.

Variable directions : list (list Z).
Variables (n d sc : Z) (g : SobolSample).
Hypothesis Hinit : __init__ directions n d sc = Ok g.

(** The first entry of the accumulator after [j] steps. *)
Lemma gray_at_first (j : nat) :
  (j < Z.to_nat n)%nat ->
  gray_at (V g) 0 j = reverse_bits (Z.to_nat sc) (gray_code (Z.of_nat j)).
Proof using Hinit.
  apply init_facts in Hinit
    as (((_ & Hpow) & HL0 & _) & _ & _ & Hns & _ & _ & _ & HL & Hcol0 & _).
  induction j as [|j IH]; intros Hj.
  - simpl. symmetry. apply reverse_bits_0.
  - cbn [gray_at]. rewrite IH by lia.
    replace (Z.of_nat (S j)) with (Z.of_nat j + 1) by lia.
    destruct (gray_code_succ (Z.of_nat j) ltac:(lia)) as (Hk & ->).
    pose proof (lsz_range (Z.to_nat (L g)) (Z.of_nat j)) as Hr.
    rewrite Z2Nat.id in Hr by assumption. specialize (Hr ltac:(lia)).
    rewrite Hcol0 by lia. rewrite decide_True by lia.
    rewrite reverse_bits_lxor, reverse_bits_pow2 by lia.
    do 2 f_equal. lia.
Qed.

Lemma gray_at_first_low (k j : nat) :
  (j < Z.to_nat n)%nat -> Z.of_nat j < 2 ^ Z.of_nat k -> Z.of_nat k <= L g ->
  gray_at (V g) 0 j
  = reverse_bits k (gray_code (Z.of_nat j)) * 2 ^ (sc - Z.of_nat k).
Proof using Hinit.
  intros Hj Hjk Hk. rewrite gray_at_first by assumption.
  apply init_facts in Hinit as (_ & _ & _ & _ & _ & _ & _ & HL & _).
  rewrite (reverse_bits_low k) by (lia || (apply gray_code_bound; lia)).
  do 2 f_equal. lia.
Qed.

(** The first coordinate of sample [j], on the grid of step [2^-k]. *)
Lemma first_coordinate (k j : nat) :
  (j < Z.to_nat n)%nat -> Z.of_nat j < 2 ^ Z.of_nat k -> Z.of_nat k <= L g ->
  (default 0 (sobol_row g j !! 0%nat) * inject_Z (2 ^ Z.of_nat k)
   == inject_Z (reverse_bits k (gray_code (Z.of_nat j))))%Q.
Proof using Hinit.
  intros Hj Hjk Hk.
  pose proof (init_facts _ _ _ _ _ Hinit)
    as (Hwf & _ & _ & Hns & Hnd & Hs & _ & HL & _).
  pose proof Hwf as (_ & _ & Hd1 & _).
  destruct j as [|j]; unfold sobol_row.
  - rewrite lookup_replicate_2 by lia. simpl default.
    change (gray_code (Z.of_nat 0)) with 0. rewrite reverse_bits_0.
    rewrite Qmult_0_l. reflexivity.
  - rewrite list_lookup_fmap.
    rewrite (gray_lookup g (S j) 0 Hwf) by lia. cbn [fmap option_fmap option_map default].
    change (Z.of_nat 0) with 0.
    rewrite (gray_at_first_low k (S j)) by assumption.
    rewrite Hs. apply coordinate_grid. lia.
Qed.

Lemma first_coordinate_inj (j1 j2 : nat) :
  (j1 < Z.to_nat n)%nat -> (j2 < Z.to_nat n)%nat ->
  (default 0 (sobol_row g j1 !! 0%nat) == default 0 (sobol_row g j2 !! 0%nat))%Q ->
  j1 = j2.
Proof using Hinit.
  intros Hj1 Hj2 Heq.
  pose proof (init_facts _ _ _ _ _ Hinit)
    as (((_ & Hpow) & HL0 & _) & _ & _ & Hns & _ & _ & _ & HL & _).
  assert (Z.of_nat (Z.to_nat (L g)) <= L g) as HkL by lia.
  assert (forall j : nat, (j < Z.to_nat n)%nat ->
            Z.of_nat j < 2 ^ Z.of_nat (Z.to_nat (L g))) as Hlt
    by (intros j Hj; rewrite Z2Nat.id by assumption; lia).
  pose proof (first_coordinate (Z.to_nat (L g)) j1 Hj1 (Hlt j1 Hj1) HkL) as H1.
  pose proof (first_coordinate (Z.to_nat (L g)) j2 Hj2 (Hlt j2 Hj2) HkL) as H2.
  rewrite Heq, H2 in H1. rewrite inject_Z_injective in H1. symmetry in H1.
  pose proof (Hlt j1 Hj1). pose proof (Hlt j2 Hj2).
  apply reverse_bits_inj in H1; [|apply gray_code_bound; lia..].
  apply gray_code_inj in H1; lia.
Qed.

End FirstDimension.







(** ** Every dimension: one point in each interval *)

Lemma pow2_divide_bits (t a b : Z) :
  0 <= b < t -> (2 ^ t | a) -> Z.testbit a b = false.
Proof.
  intros Hb [c ->]. apply Z.mul_pow2_bits_low. lia.
Qed.

Lemma testbit_bit_mul (n x v b : Z) :
  Z.testbit (bit n x * v) b = Z.testbit x n && Z.testbit v b.
Proof.
  unfold bit. destruct (Z.testbit x n); simpl Z.b2z.
  - rewrite Z.mul_1_l. reflexivity.
  - rewrite Z.mul_0_l. apply Z.bits_0.
Qed.

Lemma lag_xor_testbit (m0 s : Z) (col : Z -> Z) (j b : Z) :
  1 <= s -> 0 <= b ->
  Z.testbit (col (j - s)) b = false ->
  (forall k, 1 <= k < s -> Z.testbit (col (j - k)) b = false) ->
  Z.testbit (lag_xor m0 s col j) b = Z.testbit (col (j - s)) (b + s).
Proof.
  intros Hs Hb Hjs Hjk. unfold lag_xor.
  assert (forall l acc, (forall k, k ∈ l -> 1 <= k < s) ->
            Z.testbit (foldl (fun acc k => Z.lxor acc (bit (s - 1 - k) m0 * col (j - k)))
                         acc l) b = Z.testbit acc b) as Hfold.
  { induction l as [|k l IH]; intros acc Hl; simpl; [reflexivity|].
    rewrite IH by (intros k' Hk'; apply Hl; right; assumption).
    rewrite Z.lxor_spec, testbit_bit_mul, Hjk by (apply Hl; left).
    rewrite andb_false_r. apply xorb_false_r. }
  rewrite Hfold by (intros k Hk%elem_of_range; assumption).
  rewrite Z.lxor_spec, Hjs, Z.shiftr_spec by assumption. reflexivity.
Qed.

(** Row [j] of a column built from odd seeds is an odd multiple of
    [2^(scale-j)]. *)
Lemma column_odd (m : list Z) (sc l : Z) (col : Z -> Z) :
  column_law m sc l col -> (2 <= length m)%nat -> 0 <= l <= sc ->
  (forall j mj, (1 <= j)%nat -> m !! j = Some mj -> Z.odd mj = true) ->
  forall j, 1 <= j <= l -> Z.testbit (col j) (sc - j) = true.
Proof.
  intros Hlaw Hlen Hl Hodd.
  assert (m <> []) as Hne by (destruct m; [simpl in Hlen; lia|congruence]).
  pose proof (column_divide m sc l col Hlaw Hne Hl) as Hdiv.
  destruct Hlaw as (H0 & Hseed & Hrec).
  set (s := Z.of_nat (length m) - 1) in *.
  assert (1 <= s) as Hs by (subst s; lia).
  assert (forall k : nat, forall j, 1 <= j <= l -> j <= Z.of_nat k ->
            Z.testbit (col j) (sc - j) = true) as Hall.
  { induction k as [|k IH]; intros j Hj Hjk; [lia|].
    destruct (Z_le_gt_dec j s) as [Hjs|Hjs].
    - rewrite Hseed by lia. unfold seed.
      destruct (lookup_lt_is_Some_2 m (Z.to_nat j)) as [mj Hmj]; [lia|].
      rewrite Hmj. simpl default.
      rewrite Z.shiftl_spec, Z.sub_diag, Z.bit0_odd by lia.
      apply (Hodd (Z.to_nat j) mj); [lia|assumption].
    - rewrite Hrec by lia. rewrite lag_xor_testbit; [|lia|lia| |].
      + replace (sc - j + s) with (sc - (j - s)) by lia. apply IH; lia.
      + apply (pow2_divide_bits (sc - (j - s))); [lia|]. apply Hdiv. lia.
      + intros k' Hk'. apply (pow2_divide_bits (sc - (j - k'))); [lia|].
        apply Hdiv. lia. }
  intros j Hj. apply (Hall (Z.to_nat j)); lia.
Qed.

Lemma bit_0 (n : Z) : bit n 0 = 0.
Proof. unfold bit. rewrite Z.bits_0. reflexivity. Qed.

Lemma xor_rows_0 (V : matrix) (i : Z) (k : nat) : xor_rows V i 0 k = 0.
Proof.
  induction k as [|k IH]; simpl; [reflexivity|]. rewrite IH, bit_0. reflexivity.
Qed.

Lemma xor_rows_lxor (V : matrix) (i a b : Z) (k : nat) :
  xor_rows V i (Z.lxor a b) k = Z.lxor (xor_rows V i a k) (xor_rows V i b k).
Proof.
  induction k as [|k IH]; cbn [xor_rows]; [reflexivity|]. rewrite IH.
  apply Z.bits_inj'. intros t Ht.
  rewrite !Z.lxor_spec, !testbit_bit_mul, Z.lxor_spec.
  destruct (Z.testbit (xor_rows V i a k) t), (Z.testbit (xor_rows V i b k) t),
           (Z.testbit a (Z.of_nat k)), (Z.testbit b (Z.of_nat k)),
           (Z.testbit (at_ V (Z.of_nat k + 1) i) t); reflexivity.
Qed.

Lemma xor_rows_pow2 (V : matrix) (i t : Z) (k : nat) :
  0 <= t < Z.of_nat k -> xor_rows V i (2 ^ t) k = at_ V (t + 1) i.
Proof.
  induction k as [|k IH]; intros Ht; [lia|]. cbn [xor_rows].
  unfold bit. rewrite Z.pow2_bits_eqb by lia.
  destruct (Z.eqb_spec t (Z.of_nat k)) as [->|Hne]; simpl Z.b2z.
  - assert (forall r : nat, (r <= k)%nat -> xor_rows V i (2 ^ Z.of_nat k) r = 0) as Hz.
    { induction r as [|r IHr]; intros Hr; cbn [xor_rows]; [reflexivity|].
      rewrite IHr by lia. unfold bit. rewrite Z.pow2_bits_false by lia.
      reflexivity. }
    rewrite Hz by lia. rewrite Z.mul_1_l. reflexivity.
  - rewrite IH by lia. rewrite Z.mul_0_l. apply Z.lxor_0_r.
Qed.

(** The accumulator is the XOR of the rows that the Gray code selects. *)
Lemma gray_at_xor_rows (V : matrix) (i : Z) (k j : nat) :
  Z.of_nat j < 2 ^ Z.of_nat k ->
  gray_at V i j = xor_rows V i (gray_code (Z.of_nat j)) k.
Proof.
  induction j as [|j IH]; intros Hj.
  - simpl gray_at. change (gray_code (Z.of_nat 0)) with 0.
    rewrite xor_rows_0. reflexivity.
  - cbn [gray_at]. rewrite IH by lia.
    replace (Z.of_nat (S j)) with (Z.of_nat j + 1) by lia.
    destruct (gray_code_succ (Z.of_nat j) ltac:(lia)) as (_ & ->).
    pose proof (lsz_range k (Z.of_nat j) ltac:(lia)) as Hr.
    rewrite xor_rows_lxor, xor_rows_pow2 by lia.
    do 2 f_equal. lia.
Qed.

Lemma xor_rows_divide (V : matrix) (i x t : Z) (k : nat) :
  0 <= t -> (forall r, 1 <= r <= Z.of_nat k -> (2 ^ t | at_ V r i)) ->
  (2 ^ t | xor_rows V i x k).
Proof.
  intros Ht. induction k as [|k IH]; intros Hat; cbn [xor_rows].
  - apply Z.divide_0_r.
  - apply divide_lxor; [assumption|apply IH; intros r Hr; apply Hat; lia|].
    apply Z.divide_mul_r. apply Hat. lia.
Qed.

(** Rows that are odd multiples of [2^(sc-r)] are independent. *)
Lemma xor_rows_inj0 (V : matrix) (i sc : Z) (k : nat) :
  Z.of_nat k <= sc ->
  (forall r, 1 <= r <= Z.of_nat k ->
     (2 ^ (sc - r) | at_ V r i) /\ Z.testbit (at_ V r i) (sc - r) = true) ->
  forall x, 0 <= x < 2 ^ Z.of_nat k -> xor_rows V i x k = 0 -> x = 0.
Proof.
  induction k as [|k IH]; intros Hk Hat x Hx Hz.
  - simpl in Hx. lia.
  - cbn [xor_rows] in Hz.
    assert (Z.testbit x (Z.of_nat k) = false) as Hbit.
    { pose proof (f_equal (fun z => Z.testbit z (sc - (Z.of_nat k + 1))) Hz) as Hc.
      simpl in Hc. rewrite Z.lxor_spec, testbit_bit_mul, Z.bits_0 in Hc.
      rewrite (proj2 (Hat (Z.of_nat k + 1) ltac:(lia))) in Hc.
      rewrite (pow2_divide_bits (sc - Z.of_nat k)) in Hc; [| lia |].
      - rewrite andb_true_r in Hc. exact Hc.
      - apply xor_rows_divide; [lia|]. intros r Hr.
        apply (divide_pow2_le _ (sc - r)); [lia|]. apply Hat. lia. }
    unfold bit in Hz. rewrite Hbit in Hz. simpl Z.b2z in Hz.
    rewrite Z.mul_0_l, Z.lxor_0_r in Hz.
    apply IH; [lia| |  |assumption].
    + intros r Hr. apply Hat. lia.
    + apply bits_below; [lia|]. intros t Ht.
      destruct (Z.eq_dec t (Z.of_nat k)) as [->|Hne]; [assumption|].
      apply (bits_above (Z.of_nat (S k))); lia.
Qed.

Section EveryDimension.

Variable directions : list (list Z).
Variables (n d sc : Z) (g : SobolSample).
Hypothesis Hinit : __init__ directions n d sc = Ok g.
Hypothesis Hseeds : seeds_ok directions.
Hypothesis Hodd : odd_seeds directions.

Lemma V_triangular (r i : Z) :
  1 <= r <= L g -> 0 <= i < d ->
  (2 ^ (sc - r) | at_ (V g) r i) /\ Z.testbit (at_ (V g) r i) (sc - r) = true.
Proof using Hinit Hodd.
  intros Hr Hi.
  pose proof (init_inv _ _ _ _ _ Hinit) as (_ & Hd & _).
  apply init_facts in Hinit as (_ & _ & _ & _ & _ & _ & _ & HL & Hcol0 & Hlaw).
  destruct (Z.eq_dec i 0) as [->|Hi0].
  - rewrite Hcol0 by lia. rewrite decide_True by lia.
    split; [apply Z.divide_refl|]. apply Z.pow2_bits_true. lia.
  - destruct (lookup_lt_is_Some_2 directions (Z.to_nat (i - 1))) as [m Hm]; [lia|].
    destruct (Hlaw (i - 1) m ltac:(lia) Hm) as (Hne & Hcol).
    replace (i - 1 + 1) with i in Hcol by lia.
    unfold odd_seeds in Hodd. rewrite Forall_lookup in Hodd.
    destruct (Hodd _ _ Hm) as (Hlen & Hoddm).
    split.
    + apply (column_divide m sc (L g) _ Hcol Hne HL). lia.
    + apply (column_odd m sc (L g) _ Hcol Hlen HL Hoddm). lia.
Qed.

Lemma gray_at_inj (i : Z) (k j1 j2 : nat) :
  0 <= i < d -> Z.of_nat k <= L g ->
  Z.of_nat j1 < 2 ^ Z.of_nat k -> Z.of_nat j2 < 2 ^ Z.of_nat k ->
  gray_at (V g) i j1 = gray_at (V g) i j2 -> j1 = j2.
Proof using Hinit Hodd.
  intros Hi Hk Hj1 Hj2 Heq.
  pose proof (init_facts _ _ _ _ _ Hinit) as (_ & _ & _ & _ & _ & _ & _ & HL & _).
  rewrite (gray_at_xor_rows _ _ k j1), (gray_at_xor_rows _ _ k j2) in Heq by assumption.
  assert (xor_rows (V g) i
            (Z.lxor (gray_code (Z.of_nat j1)) (gray_code (Z.of_nat j2))) k = 0) as Hz
    by (rewrite xor_rows_lxor, Heq; apply Z.lxor_nilpotent).
  clear Heq. rename Hz into Heq.
  pose proof (gray_code_bound (Z.of_nat k) (Z.of_nat j1) ltac:(lia) ltac:(lia)) as Hb1.
  pose proof (gray_code_bound (Z.of_nat k) (Z.of_nat j2) ltac:(lia) ltac:(lia)) as Hb2.
  apply (xor_rows_inj0 (V g) i sc k) in Heq.
  - apply Z.lxor_eq in Heq. apply gray_code_inj in Heq; lia.
  - lia.
  - intros r Hr. apply V_triangular; lia.
  - apply bits_below; [lia|]. intros t Ht. rewrite Z.lxor_spec.
    rewrite (bits_above (Z.of_nat k) (gray_code (Z.of_nat j1))) by lia.
    rewrite (bits_above (Z.of_nat k) (gray_code (Z.of_nat j2))) by lia.
    reflexivity.
Qed.

(** Entry [i] of sample [j < 2^k], as a whole number of steps [2^-k]. *)
Lemma coordinate_steps (i : Z) (k j : nat) :
  0 <= i < d -> Z.of_nat k <= L g ->
  (j < Z.to_nat n)%nat -> Z.of_nat j < 2 ^ Z.of_nat k ->
  0 <= gray_at (V g) i j / 2 ^ (sc - Z.of_nat k) < 2 ^ Z.of_nat k /\
  gray_at (V g) i j = gray_at (V g) i j / 2 ^ (sc - Z.of_nat k) * 2 ^ (sc - Z.of_nat k) /\
  (default 0 (sobol_row g j !! Z.to_nat i) * inject_Z (2 ^ Z.of_nat k)
   == inject_Z (gray_at (V g) i j / 2 ^ (sc - Z.of_nat k)))%Q.
Proof using Hinit Hseeds Hodd.
  intros Hi Hk Hj Hjk.
  pose proof (generate_V_bounded directions n d sc g Hinit Hseeds) as HV.
  pose proof (init_facts _ _ _ _ _ Hinit)
    as (Hwf & _ & _ & Hns & Hnd & Hs & _ & HL & _).
  assert (0 < 2 ^ (sc - Z.of_nat k)) as Hpos by (apply Z.pow_pos_nonneg; lia).
  assert (0 <= gray_at (V g) i j < 2 ^ sc) as Hb.
  { apply gray_at_bounded; [lia| |apply lsz_nonneg]. intros r Hr. apply HV; lia. }
  assert (2 ^ (sc - Z.of_nat k) | gray_at (V g) i j) as [c Hc].
  { rewrite (gray_at_xor_rows _ _ k j) by assumption.
    apply xor_rows_divide; [lia|]. intros r Hr.
    apply (divide_pow2_le _ (sc - r)); [lia|]. apply V_triangular; lia. }
  assert (gray_at (V g) i j / 2 ^ (sc - Z.of_nat k) = c) as Hdiv
    by (rewrite Hc; apply Z.div_mul; lia).
  rewrite Hdiv.
  assert (2 ^ sc = 2 ^ Z.of_nat k * 2 ^ (sc - Z.of_nat k)) as Hpow
    by (rewrite <- Z.pow_add_r by lia; f_equal; lia).
  split; [nia|]. split; [assumption|].
  destruct j as [|j]; unfold sobol_row.
  - rewrite lookup_replicate_2 by lia. simpl default.
    simpl gray_at in Hc. assert (c = 0) as -> by nia.
    rewrite Qmult_0_l. reflexivity.
  - rewrite list_lookup_fmap.
    rewrite (gray_lookup g (S j) (Z.to_nat i) Hwf) by lia.
    cbn [fmap option_fmap option_map default].
    rewrite Z2Nat.id by lia. rewrite Hc, Hs. apply coordinate_grid. lia.
Qed.

End EveryDimension.


Lemma joe_kuo_odd_seeds : odd_seeds joe_kuo.
Proof.
  unfold odd_seeds, joe_kuo.
  repeat match goal with
         | |- Forall _ (_ :: _) => constructor
         | |- Forall _ [] => constructor
         end;
    (split; [simpl; lia|]);
    intros j mj Hj Hm;
    do 5 (destruct j as [|j];
          [simpl in Hm; try lia; try discriminate; injection Hm as <-; reflexivity|]);
    simpl in Hm; discriminate.
Defined.

